(** * simple_mf: the matrix-factorisation autoencoder and its batch loader

    A shallow embedding of the notebook [09 Build an autoencoder.ipynb]:
    the derived item-rating code, the model [MFAE] (forward pass [__call__]
    and [loss]) and the minibatch [Loader].

    Numbers.  The notebook computes in 32-bit floating point.  Here a float
    is an exact rational ([Qc], canonical fractions with Leibniz equality):
    rounding, overflow and NaN are outside the model.  Integer tensors
    (user ids, item ids, item-rating codes, counts) are [nat]: the ids of
    the dataset are non-negative and [torch.bincount] rejects negative input.

    Tensors.  A 2-D tensor is the list of its rows; an [(n, 1)] tensor is a
    list of [n] one-element rows, as in the notebook.

    Errors.  A Python exception (an index past the end of a table, [max] of
    an empty tensor, [StopIteration]) is [None]. *)

From Stdlib Require Import List Arith Lia Bool ZArith QArith Qcanon Lqa Permutation.
Import ListNotations.

Local Open Scope Qc_scope.

(** ** A small error monad for the exceptions of the notebook *)

Definition bind {A B : Type} (o : option A) (f : A -> option B) : option B :=
  match o with
  | Some a => f a
  | None => None
  end.

Notation "x <- e ;; k" := (bind e (fun x => k))
  (at level 61, e at next level, right associativity).

(** ** Numbers *)

(** [tensor.float()] on a non-negative integer. *)
Definition float (n : nat) : Qc := Q2Qc (inject_Z (Z.of_nat n)).

(** [a > b] on floats. *)
Definition gtb (a b : Qc) : bool :=
  match b ?= a with
  | Lt => true
  | _ => false
  end.

Definition Qcsum (l : list Qc) : Qc := fold_right Qcplus 0 l.

(** ** Tensors *)

Definition row := list Qc.
Definition tensor := list row.

(** [matrix.size(1)]. *)
Definition width (t : tensor) : nat :=
  match t with
  | [] => 0%nat
  | r :: _ => length r
  end.

Definition zeros (w : nat) : row := repeat 0 w.

(** Elementwise operations on rows of one shape. *)
Fixpoint map2 {A B C : Type} (f : A -> B -> C) (l : list A) (l' : list B) : list C :=
  match l, l' with
  | a :: l, b :: l' => f a b :: map2 f l l'
  | _, _ => []
  end.

Definition vadd (a b : row) : row := map2 Qcplus a b.
Definition vmul (a b : row) : row := map2 Qcmult a b.
Definition vscale (c : Qc) (a : row) : row := map (Qcmult c) a.
Definition vdiv (a : row) (c : Qc) : row := map (fun v => v / c) a.

(** Sum of a list of rows of width [w]. *)
Definition vsum (w : nat) (rs : list row) : row := fold_right vadd (zeros w) rs.

Definition dot (a b : row) : Qc := Qcsum (vmul a b).

(** [t[idx]] with an integer index tensor: one row per index, [IndexError]
    when an index is past the end. *)
Fixpoint gather {A : Type} (t : list A) (idx : list nat) : option (list A) :=
  match idx with
  | [] => Some []
  | i :: idx' =>
      r <- nth_error t i ;;
      rs <- gather t idx' ;;
      Some (r :: rs)
  end.

(** [t[mask]] with a boolean mask. *)
Fixpoint select {A : Type} (mask : list bool) (t : list A) : list A :=
  match mask, t with
  | b :: mask', a :: t' => if b then a :: select mask' t' else select mask' t'
  | _, _ => []
  end.

(** [out[i] = r], in range. *)
Fixpoint upd {A : Type} (i : nat) (r : A) (out : list A) : list A :=
  match out, i with
  | [], _ => []
  | _ :: out', O => r :: out'
  | a :: out', S i' => a :: upd i' r out'
  end.

(** [tensor.max()]: an error on an empty tensor. *)
Definition max_opt (l : list nat) : option nat :=
  match l with
  | [] => None
  | _ => Some (list_max l)
  end.

(** [torch.bincount(input, minlength)]: entry [u] counts the occurrences of
    [u]; the result has [max (max input + 1) minlength] entries. *)
Definition bincount (input : list nat) (minlength : nat) : list nat :=
  let n := match input with
           | [] => minlength
           | _ => Nat.max (S (list_max input)) minlength
           end in
  map (fun u => count_occ Nat.eq_dec input u) (seq 0 n).

(** ** The sparse product of [torch_sparse] (external library)

    [scatter_add(src, index, dim=0, dim_size=m)] starts from [m] zero rows
    and adds [src[i]] to row [index[i]], in order; [spmm] gathers the rows
    [matrix[col]], scales each by its value and scatters them over [row]. *)

Fixpoint scatter_add_into (src : tensor) (index : list nat) (out : tensor)
  : option tensor :=
  match src, index with
  | s :: src', i :: index' =>
      r <- nth_error out i ;;
      scatter_add_into src' index' (upd i (vadd r s) out)
  | _, _ => Some out
  end.

Definition scatter_add (src : tensor) (index : list nat) (dim_size w : nat)
  : option tensor :=
  scatter_add_into src index (repeat (zeros w) dim_size).

Definition spmm (index : list nat * list nat) (value : list Qc) (m : nat)
  (matrix : tensor) : option tensor :=
  let (row_, col) := index in
  out <- gather matrix col ;;
  let out := map2 vscale value out in
  scatter_add out row_ m (width matrix).

(** ** The data: rows of the feature array

    Columns: user id, item id, two unused columns, and the appended
    item-rating code. *)

Record features := mkFeatures {
  col0 : nat;   (* user id *)
  col1 : nat;   (* item id *)
  col2 : nat;
  col3 : nat;
  col4 : nat    (* item-rating code *)
}.

(** [item_code = x[:, 1] * 10 + y[:, 0].astype(int)], for one row;
    [rating] is the rating already truncated to an integer. *)
Definition item_code (item_id rating : nat) : nat := item_id * 10 + rating.

(** [np.hstack((x, item_code[:, None]))], for one row. *)
Definition hstack_code (user_id item_id c2 c3 rating : nat) : features :=
  mkFeatures user_id item_id c2 c3 (item_code item_id rating).

Definition n_item_enc (n_item : nat) : nat := n_item * 10 + 1.
Definition n_item_dec (n_item : nat) : nat := n_item + 1.

(** ** The model *)

Record MFAE := mkMFAE {
  k : nat;
  c_vector : Qc;
  frac : Qc;
  encoder_bias : tensor;   (* (n_encoder_item, 1) *)
  encoder_vect : tensor;   (* (n_encoder_item, k) *)
  decoder_bias : tensor;   (* (n_decoder_item, 1) *)
  decoder_vect : tensor    (* (n_decoder_item, k) *)
}.

(** The shapes [__init__] gives the four parameter tensors. *)
Definition shaped (n w : nat) (t : tensor) : Prop :=
  length t = n /\ Forall (fun r => length r = w) t.

Definition well_shaped (n_encoder_item n_decoder_item : nat) (m : MFAE) : Prop :=
  shaped n_encoder_item 1 (encoder_bias m) /\
  shaped n_encoder_item (k m) (encoder_vect m) /\
  shaped n_decoder_item 1 (decoder_bias m) /\
  shaped n_decoder_item (k m) (decoder_vect m).

(** [t / count[:, None]]: row [u] divided by [count[u]]. *)
Definition div_rows (t : tensor) (count : list Qc) : tensor := map2 vdiv t count.

(** [mask = torch.rand(len(indices)) > self.frac]; [draws] are the values
    [torch.rand] returned, each in [[0, 1)]. *)
Definition mask_of (m : MFAE) (draws : list Qc) : list bool :=
  map (fun d => gtb d (frac m)) draws.

(** The encoder half of [__call__]: the per-user mean bias and mean vector. *)
Definition encode (m : MFAE) (indices : list features) (draws : list Qc)
  : option (tensor * tensor) :=
  let idx := (map col0 indices, map col4 indices) in
  mx <- max_opt (map col0 indices) ;;
  let n_user_max := S mx in
  let values := repeat 1 (length indices) in
  let count := map (fun c => 1 + float c) (bincount (map col0 indices) n_user_max) in
  let mask := mask_of m draws in
  user_bias_sum <- spmm (select mask (fst idx), select mask (snd idx))
                        (select mask values) n_user_max (encoder_bias m) ;;
  user_vect_sum <- spmm (select mask (fst idx), select mask (snd idx))
                        (select mask values) n_user_max (encoder_vect m) ;;
  let user_bias_mean := div_rows user_bias_sum count in
  let user_vect_mean := div_rows user_vect_sum count in
  Some (user_bias_mean, user_vect_mean).

(** The decoder half of [__call__]. *)
Definition decode (m : MFAE) (indices : list features)
  (user_bias_mean user_vect_mean : tensor) : option tensor :=
  let user_idx := map col0 indices in
  let item_idx := map col1 indices in
  user_bias <- gather user_bias_mean user_idx ;;
  user_vect <- gather user_vect_mean user_idx ;;
  item_bias <- gather (decoder_bias m) item_idx ;;
  item_vect <- gather (decoder_vect m) item_idx ;;
  let user_item := map (fun r => [Qcsum r]) (map2 vmul item_vect user_vect) in
  let log_odds := map2 vadd (map2 vadd user_bias item_bias) user_item in
  Some log_odds.

(** [MFAE.__call__]. *)
Definition call (m : MFAE) (indices : list features) (draws : list Qc)
  : option tensor :=
  means <- encode m indices draws ;;
  decode m indices (fst means) (snd means).

(** ** The loss *)

(** [torch.sum(array ** 2.0)]. *)
Definition l2_regularize (array : tensor) : Qc :=
  Qcsum (map (fun v => v * v) (concat array)).

(** [F.mse_loss]: the mean of the squared differences over all elements
    (of no elements: [0] here, with [x / 0 = 0]). *)
Definition mse_loss (input target : tensor) : Qc :=
  let sq := map (fun d => d * d) (concat (map2 (map2 Qcminus) input target)) in
  Qcsum sq / float (length sq).

(** [MFAE.loss]. *)
Definition loss (m : MFAE) (log_odds target : tensor) : Qc :=
  let loss_mse := mse_loss log_odds target in
  let prior_ie := l2_regularize (encoder_vect m) * c_vector m in
  let prior_id := l2_regularize (decoder_vect m) * c_vector m in
  let total := loss_mse + prior_ie + prior_id in
  total.

(** ** The batch loader *)

Module Loader.
Section Loader.

Context {X Y : Type}.

(** [sklearn.utils.shuffle(x, y, random_state=0)] (external library) draws
    one order of the row numbers [0 .. n-1] from a generator seeded with
    [0] and takes the rows of every array in that order.  [seeded n] is
    that order for [n] rows. *)
Variable seeded : nat -> list nat.

(** [a.take(order)].  The orders drawn are orders of the row numbers of
    [a], so no index is past the end; such an index would be skipped here. *)
Definition take {A : Type} (order : list nat) (a : list A) : list A :=
  flat_map (fun i => match nth_error a i with
                     | Some v => [v]
                     | None => []
                     end) order.

(** [shuffle(x, y)] with the order the generator drew; arrays of
    different lengths are rejected. *)
Definition shuffle (order : list nat) (x : list X) (y : list Y)
  : option (list X * list Y) :=
  if length x =? length y then Some (take order x, take order y) else None.

Record t := mk {
  x : list X;
  y : list Y;
  batchsize : nat;
  do_shuffle : bool;
  current : nat
}.

(** [Loader.__init__]; [order0] is the order the unseeded shuffle drew.
    [range(0, len(y), 0)] is an error. *)
Definition init (x0 : list X) (y0 : list Y) (batchsize0 : nat)
  (do_shuffle0 : bool) (order0 : list nat) : option t :=
  if batchsize0 =? 0 then None
  else if do_shuffle0 then
    xy <- shuffle order0 x0 y0 ;;
    Some (mk (fst xy) (snd xy) batchsize0 do_shuffle0 0)
  else Some (mk x0 y0 batchsize0 do_shuffle0 0).

(** [Loader.__iter__]. *)
Definition iter (l : t) : option t :=
  if do_shuffle l then
    xy <- shuffle (seeded (length (x l))) (x l) (y l) ;;
    Some (mk (fst xy) (snd xy) (batchsize l) (do_shuffle l) 0)
  else Some (mk (x l) (y l) (batchsize l) (do_shuffle l) 0).

(** [Loader.__len__]. *)
Definition len (l : t) : nat := length (x l) / batchsize l.

(** [a[i:j]]. *)
Definition slice {A : Type} (a : list A) (i j : nat) : list A :=
  firstn (j - i) (skipn i a).

(** [Loader.__next__]; [None] is [StopIteration]. *)
Definition next (l : t) : option ((list X * list Y) * t) :=
  let n := batchsize l in
  if length (y l) <=? current l + n then None
  else
    let i := current l in
    let xs := slice (x l) i (i + n) in
    let ys := slice (y l) i (i + n) in
    Some ((xs, ys), mk (x l) (y l) (batchsize l) (do_shuffle l) (current l + n)).

(** The body of [for batch in loader]: [next] until [StopIteration], at
    most [fuel] times. *)
Fixpoint drain (fuel : nat) (l : t) : list (list X * list Y) * t :=
  match fuel with
  | O => ([], l)
  | S fuel' =>
      match next l with
      | None => ([], l)
      | Some (b, l') =>
          let (bs, l'') := drain fuel' l' in (b :: bs, l'')
      end
  end.

(** One traversal, [for batch in loader]: [iter], then [next] until it
    stops.  With a batch size of at least one, [length y] calls suffice
    (lemma [drain_stops]). *)
Definition traverse (l : t) : option (list (list X * list Y) * t) :=
  l' <- iter l ;;
  Some (drain (length (y l')) l').

(** The rows a traversal yielded, in order. *)
Definition rows_yielded (bs : list (list X * list Y)) : nat :=
  list_sum (map (fun b => length (fst b)) bs).

End Loader.
End Loader.

(** ** Descriptions of what a traversal yields *)

(** Batch [j] of a traversal over the arrays [xs], [ys] with batch size [n]
    that starts at offset [c]. *)
Definition batch_at {X Y : Type} (xs : list X) (ys : list Y) (n c j : nat)
  : list X * list Y :=
  (Loader.slice xs (c + j * n) (c + j * n + n),
   Loader.slice ys (c + j * n) (c + j * n + n)).

(** How many times [next] succeeds from offset [c] over [len] rows. *)
Definition batches_from (len n c : nat) : nat := ((len - 1 - c) / n)%nat.

(** ** Descriptions of what the forward pass computes *)

(** [t[i, 0]] and [t[i]]. *)
Definition bias_at (t : tensor) (i : nat) : Qc := nth 0 (nth i t []) 0.
Definition vect_at (t : tensor) (i : nat) : row := nth i t [].

(** The events of the batch the mask lets through to the encoder, and those
    of them that belong to user [u]. *)
Definition visible (m : MFAE) (indices : list features) (draws : list Qc)
  : list features :=
  select (mask_of m draws) indices.

Definition visible_of (m : MFAE) (indices : list features) (draws : list Qc)
  (u : nat) : list features :=
  filter (fun e => col0 e =? u)%nat (visible m indices draws).

(** All the events of user [u] in the batch, masked or not. *)
Definition events_of (indices : list features) (u : nat) : nat :=
  count_occ Nat.eq_dec (map col0 indices) u.

(** The visible events of user [u], counted. *)
Definition visible_count (m : MFAE) (indices : list features) (draws : list Qc)
  (u : nat) : nat :=
  length (visible_of m indices draws u).

(** The mean bias of user [u] the encoder returns. *)
Definition mean_bias (m : MFAE) (indices : list features) (draws : list Qc)
  (u : nat) : option Qc :=
  option_map (fun means => bias_at (fst means) u) (encode m indices draws).

(** The sums the encoder aggregates for user [u]. *)
Definition summed_bias (m : MFAE) (indices : list features) (draws : list Qc)
  (u : nat) : Qc :=
  Qcsum (map (fun e => bias_at (encoder_bias m) (col4 e)) (visible_of m indices draws u)).

Definition summed_vect (m : MFAE) (indices : list features) (draws : list Qc)
  (u : nat) : row :=
  vsum (k m) (map (fun e => vect_at (encoder_vect m) (col4 e)) (visible_of m indices draws u)).

(** A batch the forward pass accepts: the tables have the shapes of
    [__init__] with at least one encoder row, the batch is not empty,
    [torch.rand] returned one draw per event, every item id is a row of the
    decoder tables and the code of every visible event a row of the encoder
    tables. *)
Definition valid_batch (n_encoder_item n_decoder_item : nat) (m : MFAE)
  (indices : list features) (draws : list Qc) : Prop :=
  well_shaped n_encoder_item n_decoder_item m /\
  (0 < n_encoder_item)%nat /\
  indices <> [] /\
  length draws = length indices /\
  Forall (fun e => (col1 e < n_decoder_item)%nat) indices /\
  Forall (fun e => (col4 e < n_encoder_item)%nat) (visible m indices draws).

(** ** The loss in the words of its description

    Written without the functions of the model, to compare [loss] with. *)

(** [v[:, None]]: a vector as the [(n, 1)] tensor the forward pass returns
    and the targets come in. *)
Definition column (v : list Qc) : tensor := map (fun p => [p]) v.

(** The sum over the events of the squared difference between prediction
    and target. *)
Fixpoint squared_error_sum (pred target : list Qc) : Qc :=
  match pred, target with
  | p :: pred', t :: target' => (p - t) * (p - t) + squared_error_sum pred' target'
  | _, _ => 0
  end.

(** The mean squared error between a prediction vector and a target
    vector. *)
Definition mean_squared_error (pred target : list Qc) : Qc :=
  squared_error_sum pred target / float (length pred).

(** The sum of the squares of the entries of a table, row by row. *)
Fixpoint row_squares (r : row) : Qc :=
  match r with
  | [] => 0
  | v :: r' => v * v + row_squares r'
  end.

Fixpoint sum_of_squares (t : tensor) : Qc :=
  match t with
  | [] => 0
  | r :: t' => row_squares r + sum_of_squares t'
  end.

(** ** Concrete inputs used by the examples below *)

(** Four rows, batch size two, no shuffling. *)
Definition four_rows : Loader.t :=
  Loader.mk [0; 1; 2; 3]%nat [10; 11; 12; 13]%nat 2 false 0.



(** Three rows, batch size one, shuffling on. *)
Definition three_rows : Loader.t :=
  Loader.mk [0; 1; 2]%nat [10; 11; 12]%nat 1 true 0.

(** A model over [n_item = 2] items with [k = 2]: encoder row [c] has bias
    [c + 1] and vector [(c, 1)], decoder row [i] has bias [i] and vector
    [(1, i)]. *)
Definition toy (frac0 : Qc) : MFAE :=
  mkMFAE 2 1 frac0
    (map (fun c => [float (c + 1)]) (seq 0 (n_item_enc 2)))
    (map (fun c => [float c; 1]) (seq 0 (n_item_enc 2)))
    (map (fun i => [float i]) (seq 0 (n_item_dec 2)))
    (map (fun i => [1; float i]) (seq 0 (n_item_dec 2))).

Definition half : Qc := Q2Qc (1 # 2).
Definition quarter : Qc := Q2Qc (1 # 4).
Definition three_quarters : Qc := Q2Qc (3 # 4).

(** One user (id [0]) with two events: item [1] rated [1] and item [2]
    rated [0]. *)
Definition two_events : list features :=
  [hstack_code 0 1 0 0 1; hstack_code 0 2 0 0 0].

(** One user (id [0]) with one event: item [1] rated [1]. *)
Definition one_event : list features := [hstack_code 0 1 0 0 1].

(** ** The rest of the notebook: epochs and the introspection of vectors *)

(** [trainer.run(loader, max_epochs=k)] traverses the loader once per epoch;
    what the [k] traversals yield, epoch by epoch. *)
Fixpoint epochs {X Y : Type} (seeded : nat -> list nat) (k : nat)
  (l : @Loader.t X Y) : option (list (list (list X * list Y)) * Loader.t) :=
  match k with
  | O => Some ([], l)
  | S k' =>
      r <- Loader.traverse seeded l ;;
      rs <- epochs seeded k' (snd r) ;;
      Some (fst r :: fst rs, snd rs)
  end.

(** [vec = lib[q]; sim = ((lib - vec[None, :]) ** 2.0).sum(1)]: the squared
    distance of every row of [lib] to row [q]. *)
Definition sim (lib : tensor) (q : nat) : option (list Qc) :=
  vec <- nth_error lib q ;;
  Some (map (fun r => Qcsum (map (fun d => d * d) (map2 Qcminus r vec))) lib).

(** The part of a batch that belongs to user [u]: the user's events, each
    with the draw [torch.rand] returned for it. *)
Definition user_block (u : nat) (draws : list Qc) (indices : list features)
  : list (Qc * features) :=
  filter (fun p => col0 (snd p) =? u)%nat (combine draws indices).

(** Five rows, batch size two, no shuffling. *)
Definition five_rows : Loader.t :=
  Loader.mk [0; 1; 2; 3; 4]%nat [10; 11; 12; 13; 14]%nat 2 false 0.

(** Two users: user [0] with the two events of [two_events], user [1] with
    one event on item [2] rated [0]. *)
Definition three_events : list features :=
  two_events ++ [hstack_code 1 2 0 0 0].

(** The toy model with an encoder that holds only zeros. *)
Definition toy_zero_encoder : MFAE :=
  mkMFAE 2 1 half
    (repeat [0] (n_item_enc 2))
    (repeat [0; 0] (n_item_enc 2))
    (decoder_bias (toy half))
    (decoder_vect (toy half)).

(** Three decoder vectors, the first and the last equal. *)
Definition three_vectors : tensor := [[1; 0]; [0; 1]; [1; 0]].

(** The rows the notebook builds: an item id below [n_item] and a code made
    from a rating level of at most ten. *)
Definition preprocessed (n_item : nat) (e : features) : Prop :=
  (col1 e < n_item)%nat /\
  exists rating, (rating <= 10)%nat /\ col4 e = item_code (col1 e) rating.

(** Three preprocessed rows of one user over [n_item = 2] items, with their
    targets, in batches of two. *)
Definition three_ratings : Loader.t :=
  Loader.mk [hstack_code 0 0 0 0 5; hstack_code 0 1 0 0 3; hstack_code 0 1 0 0 4]
    [5; 3; 4]%nat 2 false 0.

(** * Properties *)

(** ** The batch loader *)

Local Open Scope nat_scope.

Section LoaderFacts.

Context {X Y : Type}.
Variable seeded : nat -> list nat.

Lemma next_some (l : @Loader.t X Y) :
  Loader.current l + Loader.batchsize l < length (Loader.y l) ->
  Loader.next l =
    Some (batch_at (Loader.x l) (Loader.y l) (Loader.batchsize l) (Loader.current l) 0,
          Loader.mk (Loader.x l) (Loader.y l) (Loader.batchsize l)
            (Loader.do_shuffle l) (Loader.current l + Loader.batchsize l)).
Proof.
  intros H. unfold Loader.next, batch_at.
  destruct (Nat.leb_spec (length (Loader.y l)) (Loader.current l + Loader.batchsize l)); [lia|].
  now rewrite !Nat.add_0_r.
Qed.

Lemma next_none (l : @Loader.t X Y) :
  length (Loader.y l) <= Loader.current l + Loader.batchsize l ->
  Loader.next l = None.
Proof.
  intros H. unfold Loader.next.
  destruct (Nat.leb_spec (length (Loader.y l)) (Loader.current l + Loader.batchsize l)); [easy|lia].
Qed.

Lemma batches_from_step len n c :
  0 < n -> c + n < len ->
  batches_from len n c = S (batches_from len n (c + n)).
Proof.
  intros Hn H. unfold batches_from.
  replace (len - 1 - c) with ((len - 1 - (c + n)) + 1 * n) by lia.
  rewrite Nat.div_add by lia. lia.
Qed.

Lemma batches_from_stop len n c :
  0 < n -> len <= c + n -> batches_from len n c = 0.
Proof.
  intros Hn H. unfold batches_from. apply Nat.div_small. lia.
Qed.

(** What [drain] yields, and where it leaves the cursor, when the fuel
    covers the batches that remain. *)
Lemma drain_spec fuel : forall (l : @Loader.t X Y),
  0 < Loader.batchsize l ->
  batches_from (length (Loader.y l)) (Loader.batchsize l) (Loader.current l) <= fuel ->
  Loader.drain fuel l =
    (map (batch_at (Loader.x l) (Loader.y l) (Loader.batchsize l) (Loader.current l))
         (seq 0 (batches_from (length (Loader.y l)) (Loader.batchsize l) (Loader.current l))),
     Loader.mk (Loader.x l) (Loader.y l) (Loader.batchsize l) (Loader.do_shuffle l)
       (Loader.current l
        + batches_from (length (Loader.y l)) (Loader.batchsize l) (Loader.current l)
          * Loader.batchsize l)).
Proof.
  induction fuel as [|fuel IH]; intros l Hn Hf.
  - assert (E : batches_from (length (Loader.y l)) (Loader.batchsize l) (Loader.current l) = 0) by lia.
    rewrite E. simpl. rewrite Nat.add_0_r. now destruct l.
  - simpl.
    destruct (Nat.lt_ge_cases (Loader.current l + Loader.batchsize l) (length (Loader.y l))) as [Hlt|Hge].
    + rewrite next_some by assumption.
      rewrite (batches_from_step _ _ _ Hn Hlt) in *.
      rewrite IH; simpl; [|assumption|lia].
      f_equal.
      * f_equal. rewrite <- seq_shift, map_map. apply map_ext.
        intros j. unfold batch_at.
        now replace (Loader.current l + Loader.batchsize l + j * Loader.batchsize l)
          with (Loader.current l + S j * Loader.batchsize l) by lia.
      * f_equal. lia.
    + rewrite next_none by assumption.
      rewrite (batches_from_stop _ _ _ Hn Hge). simpl.
      rewrite Nat.add_0_r. now destruct l.
Qed.

Lemma batches_from_le len n c : 0 < n -> batches_from len n c <= len.
Proof.
  intros Hn. unfold batches_from.
  etransitivity; [apply Nat.Div0.div_le_upper_bound with (q := len - 1 - c)|lia].
  nia.
Qed.

(** The fuel of [traverse] is enough: after [drain], [next] raises
    [StopIteration]. *)
Lemma drain_stops (l : @Loader.t X Y) :
  0 < Loader.batchsize l ->
  Loader.next (snd (Loader.drain (length (Loader.y l)) l)) = None.
Proof.
  intros Hn. rewrite drain_spec by (auto using batches_from_le).
  apply next_none. simpl. unfold batches_from.
  pose proof (Nat.div_mod_eq (length (Loader.y l) - 1 - Loader.current l) (Loader.batchsize l)) as E.
  pose proof (Nat.mod_upper_bound (length (Loader.y l) - 1 - Loader.current l) (Loader.batchsize l)) as U.
  nia.
Qed.

Lemma slice_length {A : Type} (a : list A) (i n : nat) :
  i + n <= length a -> length (Loader.slice a i (i + n)) = n.
Proof.
  intros H. unfold Loader.slice.
  rewrite length_firstn, length_skipn. lia.
Qed.

Lemma batches_from_in_range len n j :
  0 < n -> j < batches_from len n 0 -> j * n + n < len.
Proof.
  unfold batches_from. intros Hn Hj.
  pose proof (Nat.div_mod_eq (len - 1 - 0) n) as E.
  assert (S j * n <= len - 1 - 0) by nia.
  lia.
Qed.

(** What one traversal yields without shuffling: the batches at offsets
    [0], [n], [2n], ... as long as [offset + n < len(y)]; that is
    [(len(y) - 1) / n] batches of [n] rows each. *)
Lemma traverse_unshuffled (l : @Loader.t X Y) :
  Loader.do_shuffle l = false ->
  0 < Loader.batchsize l ->
  length (Loader.x l) = length (Loader.y l) ->
  exists bs l',
    Loader.traverse seeded l = Some (bs, l') /\
    bs = map (batch_at (Loader.x l) (Loader.y l) (Loader.batchsize l) 0)
             (seq 0 ((length (Loader.y l) - 1) / Loader.batchsize l)) /\
    Forall (fun b => length (fst b) = Loader.batchsize l /\
                     length (snd b) = Loader.batchsize l) bs /\
    Loader.rows_yielded bs
      = (length (Loader.y l) - 1) / Loader.batchsize l * Loader.batchsize l /\
    Loader.next l' = None.
Proof.
  intros Hs Hn Hlen. unfold Loader.traverse, Loader.iter. rewrite Hs. simpl.
  set (l0 := Loader.mk _ _ _ _ _).
  pose proof (drain_stops l0 Hn) as Hstop.
  pose proof (drain_spec (length (Loader.y l)) l0 Hn
                (batches_from_le _ _ _ Hn)) as E.
  change (Loader.y l0) with (Loader.y l) in Hstop.
  rewrite E in Hstop |- *. clear E.
  subst l0. simpl in *. unfold batches_from in *. rewrite Nat.sub_0_r in *.
  eexists _, _. split; [reflexivity|]. split; [reflexivity|].
  assert (F : Forall (fun b : list X * list Y =>
               length (fst b) = Loader.batchsize l /\ length (snd b) = Loader.batchsize l)
             (map (batch_at (Loader.x l) (Loader.y l) (Loader.batchsize l) 0)
                (seq 0 ((length (Loader.y l) - 1) / Loader.batchsize l)))).
  { apply Forall_forall. intros b Hb. apply in_map_iff in Hb as (j & <- & Hj).
    apply in_seq in Hj. simpl.
    assert (j * Loader.batchsize l + Loader.batchsize l < length (Loader.y l)).
    { apply batches_from_in_range; [assumption|]. unfold batches_from.
      rewrite Nat.sub_0_r. lia. }
    split; apply slice_length; lia. }
  split; [exact F|]. split; [|exact Hstop].
  unfold Loader.rows_yielded.
  set (bs := map _ _) in *.
  assert (L : length bs = (length (Loader.y l) - 1) / Loader.batchsize l)
    by (subst bs; now rewrite length_map, length_seq).
  rewrite <- L. clear L. induction F as [|b bs' [Hb _] _ IH]; simpl; [reflexivity|].
  rewrite Hb, IH. reflexivity.
Qed.

End LoaderFacts.

(** C2 (the code departs from the claim).  Four rows in batches of two: the
    batch size divides the number of rows, [__len__] announces two batches,
    and the traversal yields only the first one, two rows instead of the
    [(4 / 2) * 2 = 4] of the claim; [__next__] stops as soon as
    [current + n >= len(y)], which is already true when exactly one full
    batch remains. *)
Theorem loader_drops_last_full_batch :
  exists l',
    Loader.traverse (fun n => seq 0 n) four_rows
      = Some ([([0; 1], [10; 11])], l') /\
    Loader.next l' = None /\
    Loader.current l' = 2 /\
    Loader.rows_yielded [([0; 1], [10; 11])] = 2 /\
    Loader.len four_rows = 2 /\
    length (Loader.y four_rows) / Loader.batchsize four_rows
      * Loader.batchsize four_rows = 4.
Proof.
  eexists. repeat split.
Qed.

(** *** Shuffling *)

Section ShuffleFacts.

Context {A B : Type}.

Lemma nth_error_combine (a : list A) (b : list B) : forall i,
  nth_error (combine a b) i =
    match nth_error a i, nth_error b i with
    | Some u, Some v => Some (u, v)
    | _, _ => None
    end.
Proof.
  revert b. induction a as [|u a IH]; intros [|v b] [|i]; simpl; try reflexivity.
  - now destruct (nth_error a i).
  - apply IH.
Qed.

(** Taking both arrays in one order keeps the rows paired. *)
Lemma take_combine (order : list nat) (a : list A) (b : list B) :
  length a = length b ->
  combine (Loader.take order a) (Loader.take order b)
    = Loader.take order (combine a b).
Proof.
  intros Hlen. induction order as [|i order IH]; simpl; [reflexivity|].
  rewrite nth_error_combine.
  destruct (nth_error a i) as [u|] eqn:Ea, (nth_error b i) as [v|] eqn:Eb; simpl.
  - now rewrite IH.
  - apply nth_error_None in Eb.
    assert (i < length a) by (apply nth_error_Some; congruence). lia.
  - apply nth_error_None in Ea.
    assert (i < length b) by (apply nth_error_Some; congruence). lia.
  - exact IH.
Qed.

Lemma take_shift (u : A) (a : list A) (order : list nat) :
  Loader.take (map S order) (u :: a) = Loader.take order a.
Proof.
  unfold Loader.take. induction order as [|i order IH]; simpl; [reflexivity|].
  now rewrite IH.
Qed.

Lemma take_seq (a : list A) : Loader.take (seq 0 (length a)) a = a.
Proof.
  induction a as [|u a IH]; [reflexivity|].
  simpl length. simpl seq. rewrite <- seq_shift.
  change (Loader.take (0 :: map S (seq 0 (length a))) (u :: a))
    with (u :: Loader.take (map S (seq 0 (length a))) (u :: a)).
  now rewrite take_shift, IH.
Qed.

(** Taking the rows in an order that is a permutation of the row numbers
    permutes the rows. *)
Lemma take_permutation (order : list nat) (a : list A) :
  Permutation order (seq 0 (length a)) ->
  Permutation (Loader.take order a) a.
Proof.
  intros H. rewrite <- (take_seq a) at 2.
  unfold Loader.take. now apply Permutation_flat_map.
Qed.

Lemma slice_combine (a : list A) (b : list B) (i j : nat) :
  combine (Loader.slice a i j) (Loader.slice b i j)
    = Loader.slice (combine a b) i j.
Proof.
  unfold Loader.slice. rewrite <- combine_firstn. f_equal.
  clear j. revert a b. induction i as [|i IH]; intros a b; [reflexivity|].
  destruct a as [|u a], b as [|v b]; simpl; try reflexivity.
  - now destruct (skipn i a).
  - apply IH.
Qed.

End ShuffleFacts.

Section Restart.

Context {X Y : Type}.
Variable seeded : nat -> list nat.

(** A restart with shuffling on: the seeded order is applied to both
    arrays as they are stored at that moment, and the cursor is reset. *)
Lemma iter_shuffled (l : @Loader.t X Y) :
  Loader.do_shuffle l = true ->
  length (Loader.x l) = length (Loader.y l) ->
  Loader.iter seeded l =
    Some (Loader.mk (Loader.take (seeded (length (Loader.x l))) (Loader.x l))
                    (Loader.take (seeded (length (Loader.x l))) (Loader.y l))
                    (Loader.batchsize l) true 0).
Proof.
  intros Hs Hlen. unfold Loader.iter, Loader.shuffle.
  rewrite Hs, Hlen, Nat.eqb_refl. reflexivity.
Qed.

Lemma drain_arrays fuel : forall (l : @Loader.t X Y),
  Loader.x (snd (Loader.drain fuel l)) = Loader.x l /\
  Loader.y (snd (Loader.drain fuel l)) = Loader.y l /\
  Loader.batchsize (snd (Loader.drain fuel l)) = Loader.batchsize l /\
  Loader.do_shuffle (snd (Loader.drain fuel l)) = Loader.do_shuffle l.
Proof.
  induction fuel as [|fuel IH]; intros l; simpl; [easy|].
  unfold Loader.next.
  destruct (length (Loader.y l) <=? Loader.current l + Loader.batchsize l); [easy|].
  match goal with |- context [Loader.drain fuel ?l0] =>
    specialize (IH l0); destruct (Loader.drain fuel l0) end.
  exact IH.
Qed.


End Restart.

(** A loader constructed with shuffling on holds arrays of one length, a
    batch size of at least one and the rows paired as they were given. *)
Lemma init_shuffled {X Y : Type} (x0 : list X) (y0 : list Y) (n : nat)
  (order0 : list nat) (l : Loader.t) :
  Loader.init x0 y0 n true order0 = Some l ->
  Permutation order0 (seq 0 (length x0)) ->
  Loader.do_shuffle l = true /\
  0 < Loader.batchsize l /\
  length (Loader.x l) = length (Loader.y l) /\
  Permutation (combine (Loader.x l) (Loader.y l)) (combine x0 y0).
Proof.
  unfold Loader.init, Loader.shuffle. intros H P.
  destruct (Nat.eqb_spec n 0) as [|Hn]; [discriminate|].
  destruct (Nat.eqb_spec (length x0) (length y0)) as [Hlen|]; [|discriminate].
  injection H as <-. simpl.
  assert (Px : Permutation (Loader.take order0 x0) x0) by now apply take_permutation.
  assert (Py : Permutation (Loader.take order0 y0) y0)
    by (apply take_permutation; now rewrite <- Hlen).
  repeat split; try lia.
  - rewrite (Permutation_length Px), (Permutation_length Py). exact Hlen.
  - rewrite take_combine by assumption. apply take_permutation.
    rewrite length_combine. now replace (Init.Nat.min (length x0) (length y0)) with (length x0) by lia.
Qed.




(** ** Lists and tensors *)

Local Open Scope Qc_scope.

Section ListFacts.

Context {A B C : Type}.

Lemma nth_error_map2 (f : A -> B -> C) (l : list A) (l' : list B) : forall i a b,
  nth_error l i = Some a -> nth_error l' i = Some b ->
  nth_error (map2 f l l') i = Some (f a b).
Proof.
  revert l'. induction l as [|x l IH]; intros [|y l'] [|i] a b Ha Hb;
    simpl in *; try discriminate.
  - congruence.
  - eapply IH; eassumption.
Qed.

Lemma length_map2 (f : A -> B -> C) (l : list A) (l' : list B) :
  length l = length l' -> length (map2 f l l') = length l.
Proof.
  revert l'. induction l as [|x l IH]; intros [|y l'] H; simpl in *;
    try discriminate; [reflexivity|].
  f_equal. apply IH. lia.
Qed.

Lemma select_map (f : A -> B) (mask : list bool) (l : list A) :
  select mask (map f l) = map f (select mask l).
Proof.
  revert l. induction mask as [|b mask IH]; intros [|a l]; simpl; try reflexivity.
  destruct b; simpl; now rewrite IH.
Qed.

Lemma select_repeat (a : A) (mask : list bool) (l : list B) :
  select mask (repeat a (length l)) = repeat a (length (select mask l)).
Proof.
  revert l. induction mask as [|b mask IH]; intros [|x l]; simpl; try reflexivity.
  destruct b; simpl; now rewrite IH.
Qed.

Lemma select_all (mask : list bool) (l : list A) :
  length mask = length l -> Forall (fun b => b = true) mask ->
  select mask l = l.
Proof.
  revert l. induction mask as [|b mask IH]; intros [|a l] Hlen F;
    simpl in *; try discriminate; [reflexivity|].
  inversion F; subst. f_equal. apply IH; [lia|assumption].
Qed.

Lemma gather_map (t : list B) (d : B) (f : A -> nat) (l : list A) :
  Forall (fun e => (f e < length t)%nat) l ->
  gather t (map f l) = Some (map (fun e => nth (f e) t d) l).
Proof.
  induction 1 as [|e l He _ IH]; simpl; [reflexivity|].
  rewrite (nth_error_nth' t d He), IH. reflexivity.
Qed.

Lemma nth_error_upd_eq (out : list A) : forall i r,
  (i < length out)%nat -> nth_error (upd i r out) i = Some r.
Proof.
  induction out as [|a out IH]; intros [|i] r H; simpl in *; try lia; [reflexivity|].
  apply IH. lia.
Qed.

Lemma nth_error_upd_neq (out : list A) : forall i j r,
  i <> j -> nth_error (upd i r out) j = nth_error out j.
Proof.
  induction out as [|a out IH]; intros [|i] [|j] r H; simpl; try reflexivity; try lia.
  apply IH. lia.
Qed.

Lemma length_upd (out : list A) : forall i r, length (upd i r out) = length out.
Proof.
  induction out as [|a out IH]; intros [|i] r; simpl; try reflexivity.
  f_equal. apply IH.
Qed.

End ListFacts.

Lemma vadd_comm (a b : row) : vadd a b = vadd b a.
Proof.
  unfold vadd. revert b. induction a as [|x a IH]; intros [|y b]; simpl; try reflexivity.
  rewrite IH. f_equal. ring.
Qed.

Lemma vadd_assoc (a b c : row) : vadd a (vadd b c) = vadd (vadd a b) c.
Proof.
  unfold vadd. revert b c.
  induction a as [|x a IH]; intros [|y b] [|z c]; simpl; try reflexivity.
  rewrite IH. f_equal. ring.
Qed.

(** Adding rows one after the other into a zero row, as [scatter_add] does,
    gives their sum. *)
Lemma fold_left_vadd (w : nat) (rs : list row) :
  fold_left vadd rs (zeros w) = vsum w rs.
Proof.
  unfold vsum. apply fold_symmetric.
  - intros. apply vadd_assoc.
  - intros. apply vadd_comm.
Qed.

Lemma vscale_1 (r : row) : vscale 1 r = r.
Proof.
  unfold vscale. induction r as [|x r IH]; simpl; [reflexivity|].
  rewrite IH. f_equal. ring.
Qed.

Lemma vsum_singletons {E : Type} (f : E -> Qc) (l : list E) :
  vsum 1 (map (fun e => [f e]) l) = [Qcsum (map f l)].
Proof.
  unfold vsum. induction l as [|e l IH]; simpl; [reflexivity|].
  rewrite IH. reflexivity.
Qed.

Lemma vdiv_zeros (w : nat) (c : Qc) : vdiv (zeros w) c = zeros w.
Proof.
  unfold vdiv, zeros. induction w as [|w IH]; simpl; [reflexivity|].
  rewrite IH. f_equal. unfold Qcdiv. ring.
Qed.

Lemma vmul_zeros_r (a : row) : Qcsum (vmul a (zeros (length a))) = 0.
Proof.
  unfold vmul, zeros. induction a as [|x a IH]; simpl; [reflexivity|].
  rewrite IH. ring.
Qed.

Lemma vmul_comm (a b : row) : vmul a b = vmul b a.
Proof.
  unfold vmul. revert b. induction a as [|x a IH]; intros [|y b]; simpl; try reflexivity.
  rewrite IH. f_equal. ring.
Qed.

Lemma length_vadd (a b : row) :
  length a = length b -> length (vadd a b) = length a.
Proof. apply length_map2. Qed.

Lemma length_vsum (w : nat) (rs : list row) :
  Forall (fun r => length r = w) rs -> length (vsum w rs) = w.
Proof.
  unfold vsum. induction 1 as [|r rs Hr _ IH]; simpl.
  - apply repeat_length.
  - rewrite length_vadd; congruence.
Qed.

(** ** The sparse product *)

Lemma scatter_add_into_spec {E : Type} (g : E -> row) (h : E -> nat) (l : list E) :
  forall out,
    Forall (fun e => (h e < length out)%nat) l ->
    exists res,
      scatter_add_into (map g l) (map h l) out = Some res /\
      length res = length out /\
      forall u r, nth_error out u = Some r ->
        nth_error res u
          = Some (fold_left vadd (map g (filter (fun e => h e =? u)%nat l)) r).
Proof.
  induction l as [|e l IH]; intros out F; simpl.
  - exists out. repeat split. intros u r H. exact H.
  - inversion F as [|? ? He F']; subst.
    destruct (nth_error out (h e)) as [r0|] eqn:E0;
      [|apply nth_error_None in E0; lia].
    simpl.
    destruct (IH (upd (h e) (vadd r0 (g e)) out)) as (res & R & L & S).
    { rewrite length_upd. exact F'. }
    exists res. split; [exact R|]. split; [now rewrite L, length_upd|].
    intros u r Hu.
    destruct (Nat.eqb_spec (h e) u) as [Heq|Hne].
    + simpl. apply S. rewrite <- Heq.
      rewrite nth_error_upd_eq by (apply nth_error_Some; congruence).
      congruence.
    + apply S. now rewrite nth_error_upd_neq.
Qed.

(** [spmm] over the events [l] with all values one: row [u] of the product
    is the sum of the rows [matrix[code e]] over the events [e] of [l] whose
    user is [u]. *)
Lemma spmm_spec (matrix : tensor) (n w m : nat) (l : list features) :
  shaped n w matrix -> (0 < n)%nat ->
  Forall (fun e => (col0 e < m)%nat) l ->
  Forall (fun e => (col4 e < n)%nat) l ->
  exists res,
    spmm (map col0 l, map col4 l) (repeat 1 (length l)) m matrix = Some res /\
    length res = m /\
    forall u, (u < m)%nat ->
      nth_error res u
        = Some (vsum w (map (fun e => vect_at matrix (col4 e))
                          (filter (fun e => col0 e =? u)%nat l))).
Proof.
  intros [Hn Hw] Hpos F0 F4. unfold spmm.
  rewrite (gather_map matrix [] col4 l) by (now rewrite Hn). simpl.
  assert (W : width matrix = w).
  { destruct matrix as [|r t]; simpl in *; [lia|]. now inversion Hw. }
  assert (V : map2 vscale (repeat 1 (length l)) (map (fun e => nth (col4 e) matrix []) l)
              = map (fun e => vect_at matrix (col4 e)) l).
  { clear. induction l as [|e l IH]; simpl; [reflexivity|].
    now rewrite IH, vscale_1. }
  rewrite V, W. unfold scatter_add.
  destruct (scatter_add_into_spec (fun e => vect_at matrix (col4 e)) col0 l
              (repeat (zeros w) m)) as (res & R & L & S).
  { now rewrite repeat_length. }
  exists res. split; [exact R|]. rewrite repeat_length in L. split; [exact L|].
  intros u Hu. rewrite (S u (zeros w)), fold_left_vadd; [reflexivity|].
  rewrite nth_error_repeat; [reflexivity|assumption].
Qed.

(** ** The encoder *)

Lemma max_opt_bound (l : list nat) (mx : nat) :
  max_opt l = Some mx -> Forall (fun u => (u < S mx)%nat) l.
Proof.
  destruct l as [|a l]; [discriminate|]. intros [= E].
  change (list_max (a :: l) = mx) in E.
  assert (F : Forall (fun u => (u <= list_max (a :: l))%nat) (a :: l))
    by (now apply list_max_le).
  rewrite E in F. revert F. apply Forall_impl. intros; lia.
Qed.

Lemma max_opt_some (l : list nat) : l <> [] -> exists mx, max_opt l = Some mx.
Proof. destruct l; [congruence|]. intros _. eexists. reflexivity. Qed.

Lemma bincount_spec (input : list nat) (mx : nat) :
  max_opt input = Some mx ->
  length (bincount input (S mx)) = S mx /\
  forall u, (u < S mx)%nat ->
    nth_error (bincount input (S mx)) u = Some (count_occ Nat.eq_dec input u).
Proof.
  destruct input as [|a l]; [discriminate|]. intros [= E].
  change (list_max (a :: l) = mx) in E.
  unfold bincount. rewrite E, Nat.max_id. split.
  - now rewrite length_map, length_seq.
  - intros u Hu.
    rewrite nth_error_map, nth_error_seq.
    destruct (Nat.ltb_spec u (S mx)); [reflexivity|lia].
Qed.

Lemma shaped_row (n w : nat) (t : tensor) (i : nat) :
  shaped n w t -> (i < n)%nat -> length (vect_at t i) = w.
Proof.
  intros [Hn Hw] Hi. unfold vect_at.
  rewrite Forall_forall in Hw. apply Hw, nth_In. lia.
Qed.

Lemma shaped_bias_row (n : nat) (t : tensor) (i : nat) :
  shaped n 1 t -> (i < n)%nat -> vect_at t i = [bias_at t i].
Proof.
  intros Hs Hi. pose proof (shaped_row _ _ _ _ Hs Hi) as L.
  unfold bias_at. unfold vect_at in *.
  destruct (nth i t []) as [|b [|? ?]]; simpl in *; try discriminate. reflexivity.
Qed.

Lemma Forall_filter {A : Type} (P : A -> Prop) (f : A -> bool) (l : list A) :
  Forall P l -> Forall P (filter f l).
Proof.
  intros F. apply Forall_forall. intros a Ha. apply filter_In in Ha as [Ha _].
  rewrite Forall_forall in F. now apply F.
Qed.

Lemma Forall_select {A : Type} (P : A -> Prop) (mask : list bool) (l : list A) :
  Forall P l -> Forall P (select mask l).
Proof.
  revert l. induction mask as [|b mask IH]; intros [|a l] F; simpl; try constructor.
  inversion F; subst. destruct b; [constructor|]; auto.
Qed.

(** The per-user means the encoder returns, on a batch it accepts. *)
Lemma encode_spec (n_enc n_dec : nat) (m : MFAE) (indices : list features)
  (draws : list Qc) :
  valid_batch n_enc n_dec m indices draws ->
  exists mx ub uv,
    max_opt (map col0 indices) = Some mx /\
    encode m indices draws = Some (ub, uv) /\
    length ub = S mx /\ length uv = S mx /\
    forall u, (u < S mx)%nat ->
      nth_error ub u
        = Some [summed_bias m indices draws u / (1 + float (events_of indices u))] /\
      nth_error uv u
        = Some (vdiv (summed_vect m indices draws u) (1 + float (events_of indices u))).
Proof.
  intros ((Seb & Sev & Sdb & Sdv) & Hpos & Hne & Hlen & Fitem & Fcode).
  destruct (max_opt_some (map col0 indices)) as [mx Hmx].
  { destruct indices; [congruence|discriminate]. }
  pose proof (max_opt_bound _ _ Hmx) as Fu.
  rewrite Forall_map in Fu.
  pose proof (Forall_select _ (mask_of m draws) _ Fu) as Fv.
  fold (visible m indices draws) in Fv.
  destruct (spmm_spec (encoder_bias m) n_enc 1 (S mx) (visible m indices draws))
    as (sb & Eb & Lb & Rb); try assumption.
  destruct (spmm_spec (encoder_vect m) n_enc (k m) (S mx) (visible m indices draws))
    as (sv & Ev & Lv & Rv); try assumption.
  destruct (bincount_spec _ _ Hmx) as [Lc Rc].
  exists mx. eexists. eexists. split; [exact Hmx|].
  unfold encode. rewrite Hmx. cbn [bind fst snd].
  rewrite !select_map, select_repeat.
  fold (visible m indices draws). rewrite Eb, Ev. cbn [bind].
  split; [reflexivity|].
  unfold div_rows.
  split; [rewrite length_map2; rewrite ?length_map; congruence|].
  split; [rewrite length_map2; rewrite ?length_map; congruence|].
  intros u Hu.
  assert (Cu : nth_error (map (fun c => 1 + float c) (bincount (map col0 indices) (S mx))) u
               = Some (1 + float (events_of indices u)))
    by (rewrite nth_error_map, (Rc u Hu); reflexivity).
  split.
  - rewrite (nth_error_map2 _ _ _ _ _ _ (Rb u Hu) Cu). f_equal.
    unfold summed_bias, visible_of.
    rewrite (map_ext_in (fun e => vect_at (encoder_bias m) (col4 e))
               (fun e => [bias_at (encoder_bias m) (col4 e)])).
    + rewrite vsum_singletons. reflexivity.
    + intros e He. apply filter_In in He as [He _].
      rewrite Forall_forall in Fcode.
      apply (shaped_bias_row n_enc); auto.
  - rewrite (nth_error_map2 _ _ _ _ _ _ (Rv u Hu) Cu). reflexivity.
Qed.

(** ** The decoder *)

Lemma map2_map {E A B C : Type} (f : A -> B -> C) (g : E -> A) (h : E -> B)
  (l : list E) :
  map2 f (map g l) (map h l) = map (fun e => f (g e) (h e)) l.
Proof. induction l as [|e l IH]; simpl; [reflexivity|]. now rewrite IH. Qed.

Lemma nth_error_vect_at (t : tensor) (i : nat) (r : row) :
  nth_error t i = Some r -> vect_at t i = r.
Proof. intros H. unfold vect_at. now apply nth_error_nth. Qed.

(** What the decoder returns from per-user means [ub] (one-column rows) and
    [uv] that cover every user id of the batch. *)
Lemma decode_spec (n_dec mx : nat) (m : MFAE) (indices : list features)
  (ub uv : tensor) :
  shaped n_dec 1 (decoder_bias m) ->
  shaped n_dec (k m) (decoder_vect m) ->
  Forall (fun e => (col1 e < n_dec)%nat) indices ->
  Forall (fun e => (col0 e < S mx)%nat) indices ->
  length ub = S mx -> length uv = S mx ->
  (forall u, (u < S mx)%nat -> vect_at ub u = [bias_at ub u]) ->
  exists out,
    decode m indices ub uv = Some out /\
    length out = length indices /\
    forall j e, nth_error indices j = Some e ->
      nth_error out j
        = Some [bias_at ub (col0 e) + bias_at (decoder_bias m) (col1 e)
                + dot (vect_at uv (col0 e)) (vect_at (decoder_vect m) (col1 e))].
Proof.
  intros Sdb Sdv Fitem Fuser Lub Luv Hub.
  unfold decode.
  rewrite (gather_map ub [] col0 indices) by (now rewrite Lub).
  rewrite (gather_map uv [] col0 indices) by (now rewrite Luv).
  rewrite (gather_map (decoder_bias m) [] col1 indices) by (now rewrite (proj1 Sdb)).
  rewrite (gather_map (decoder_vect m) [] col1 indices) by (now rewrite (proj1 Sdv)).
  simpl. rewrite !map2_map, map_map, map2_map.
  eexists. split; [reflexivity|]. split; [apply length_map|].
  intros j e Hj. rewrite nth_error_map, Hj. simpl. f_equal.
  assert (He0 : (col0 e < S mx)%nat).
  { rewrite Forall_forall in Fuser. eapply Fuser, nth_error_In, Hj. }
  assert (He1 : (col1 e < n_dec)%nat).
  { rewrite Forall_forall in Fitem. eapply Fitem, nth_error_In, Hj. }
  fold (vect_at ub (col0 e)). rewrite (Hub _ He0).
  fold (vect_at (decoder_bias m) (col1 e)).
  rewrite (shaped_bias_row n_dec _ _ Sdb He1). simpl.
  unfold dot. now rewrite vmul_comm.
Qed.

(** The whole forward pass on a batch it accepts. *)
Lemma call_spec (n_enc n_dec : nat) (m : MFAE) (indices : list features)
  (draws : list Qc) :
  valid_batch n_enc n_dec m indices draws ->
  exists mx ub uv out,
    max_opt (map col0 indices) = Some mx /\
    encode m indices draws = Some (ub, uv) /\
    call m indices draws = Some out /\
    length ub = S mx /\ length uv = S mx /\
    (forall u, (u < S mx)%nat ->
       nth_error ub u
         = Some [summed_bias m indices draws u / (1 + float (events_of indices u))] /\
       nth_error uv u
         = Some (vdiv (summed_vect m indices draws u) (1 + float (events_of indices u)))) /\
    length out = length indices /\
    forall j e, nth_error indices j = Some e ->
      nth_error out j
        = Some [bias_at ub (col0 e) + bias_at (decoder_bias m) (col1 e)
                + dot (vect_at uv (col0 e)) (vect_at (decoder_vect m) (col1 e))].
Proof.
  intros V.
  destruct (encode_spec _ _ _ _ _ V) as (mx & ub & uv & Hmx & E & Lub & Luv & M).
  destruct V as ((Seb & Sev & Sdb & Sdv) & Hpos & Hne & Hlen & Fitem & Fcode).
  pose proof (max_opt_bound _ _ Hmx) as Fu. rewrite Forall_map in Fu.
  destruct (decode_spec n_dec mx m indices ub uv) as (out & D & Lo & P); try assumption.
  { intros u Hu. destruct (M u Hu) as [Hb _].
    unfold bias_at. fold (vect_at ub u). now rewrite (nth_error_vect_at _ _ _ Hb). }
  exists mx, ub, uv, out.
  repeat split; try assumption;
    try (now apply M).
  unfold call. rewrite E. exact D.
Qed.

(** ** Order on the rationals *)

Lemma Qcle_Q (a b : Qc) : a <= b <-> (this a <= this b)%Q.
Proof. reflexivity. Qed.

Lemma this_mult (a b : Qc) : (this (a * b) == this a * this b)%Q.
Proof. unfold Qcmult, Q2Qc. cbn [this]. apply Qred_correct. Qed.

Lemma this_inv (a : Qc) : (this (/ a) == / this a)%Q.
Proof. unfold Qcinv, Q2Qc. cbn [this]. apply Qred_correct. Qed.

Lemma this_0 : (this 0 == 0)%Q.
Proof. reflexivity. Qed.

Lemma Qc_sq_nonneg (v : Qc) : 0 <= v * v.
Proof.
  apply Qcle_Q. rewrite this_mult, this_0. generalize (this v). intros q. nra.
Qed.

Lemma Qc_mult_nonneg (a b : Qc) : 0 <= a -> 0 <= b -> 0 <= a * b.
Proof.
  rewrite !Qcle_Q, this_mult, this_0. apply Qmult_le_0_compat.
Qed.

Lemma Qc_plus_nonneg (a b : Qc) : 0 <= a -> 0 <= b -> 0 <= a + b.
Proof.
  intros Ha Hb. replace 0 with (0 + 0) by ring. now apply Qcplus_le_compat.
Qed.

Lemma Qc_inv_nonneg (a : Qc) : 0 <= a -> 0 <= / a.
Proof.
  rewrite !Qcle_Q, this_inv, this_0. apply Qinv_le_0_compat.
Qed.

Lemma float_nonneg (n : nat) : 0 <= float n.
Proof.
  apply Qcle_Q. unfold float, Q2Qc at 2. cbn [this]. rewrite Qred_correct, this_0.
  unfold Qle. cbn [Qnum Qden inject_Z]. lia.
Qed.


Lemma Qcsum_nonneg (l : list Qc) : Forall (fun v => 0 <= v) l -> 0 <= Qcsum l.
Proof.
  induction 1 as [|v l Hv _ IH]; simpl; [apply Qcle_refl|].
  now apply Qc_plus_nonneg.
Qed.

Lemma gtb_lt (a b : Qc) : gtb a b = true <-> b < a.
Proof.
  unfold gtb. rewrite Qclt_alt. destruct (b ?= a); intuition congruence.
Qed.

(** ** The claims about the forward pass *)

Lemma In_lt_max (indices : list features) (mx u : nat) :
  max_opt (map col0 indices) = Some mx -> In u (map col0 indices) -> (u < S mx)%nat.
Proof.
  intros Hmx Hu. pose proof (max_opt_bound _ _ Hmx) as F.
  rewrite Forall_forall in F. now apply F.
Qed.

(** C1 (as the code has it).  On every batch the forward pass accepts and
    for every masking outcome, the mean bias and the mean vector of each user
    of the batch are the user's encoder bias and vector summed over the
    user's visible events, divided by one plus the number of ALL the user's
    events in the batch, masked or not: [count] is computed from the whole
    user column before the mask is drawn. *)
Theorem mean_divides_by_all_events (n_enc n_dec : nat) (m : MFAE)
  (indices : list features) (draws : list Qc) :
  valid_batch n_enc n_dec m indices draws ->
  exists ub uv,
    encode m indices draws = Some (ub, uv) /\
    forall u, In u (map col0 indices) ->
      bias_at ub u
        = summed_bias m indices draws u / (float (events_of indices u) + 1) /\
      vect_at uv u
        = vdiv (summed_vect m indices draws u) (float (events_of indices u) + 1) /\
      (visible_count m indices draws u <= events_of indices u)%nat.
Proof.
  intros V.
  destruct (encode_spec _ _ _ _ _ V) as (mx & ub & uv & Hmx & E & _ & _ & M).
  exists ub, uv. split; [exact E|].
  intros u Hu. destruct (M u (In_lt_max _ _ _ Hmx Hu)) as [Hb Hv].
  replace (float (events_of indices u) + 1) with (1 + float (events_of indices u)) by ring.
  split; [|split].
  - unfold bias_at. fold (vect_at ub u). now rewrite (nth_error_vect_at _ _ _ Hb).
  - now apply nth_error_vect_at.
  - unfold visible_count, visible_of, visible, events_of.
    generalize (mask_of m draws). clear. intros mask. revert mask.
    induction indices as [|e l IH]; intros [|b mask]; simpl; try lia.
    specialize (IH mask).
    destruct b; simpl; destruct (Nat.eqb_spec (col0 e) u), (Nat.eq_dec (col0 e) u);
      simpl; try lia; try congruence.
Qed.

(** The toy model accepts the two-event batch whatever the draws. *)
Lemma toy_valid (frac0 d1 d2 : Qc) :
  valid_batch (n_item_enc 2) (n_item_dec 2) (toy frac0) two_events [d1; d2].
Proof.
  repeat split; try (cbv; lia); try discriminate.
  - repeat constructor.
  - repeat constructor.
  - repeat constructor.
  - repeat constructor.
  - repeat constructor; cbv; lia.
  - apply Forall_select. repeat constructor; cbv; lia.
Defined.

(** Witness for C1: one user, two events, the second one masked; the mean
    bias is [12 / (2 + 1) = 4]. *)
Lemma mean_divides_by_all_events_witness :
  exists ub uv,
    encode (toy half) two_events [three_quarters; quarter] = Some (ub, uv) /\
    bias_at ub 0 = Q2Qc 4.
Proof.
  destruct (mean_divides_by_all_events _ _ _ _ _
              (toy_valid half three_quarters quarter)) as (ub & uv & E & M).
  exists ub, uv. split; [exact E|].
  destruct (M 0%nat) as (Hb & _); [simpl; auto|].
  rewrite Hb. apply Qc_is_canon. vm_compute. reflexivity.
Defined.

(** C1 (the claim as stated fails).  Same batch: the user has one visible
    event out of two, with encoder bias [12].  The claim gives the mean
    [12 / (1 + 1) = 6]; the forward pass returns [12 / (2 + 1) = 4]. *)
Lemma mean_is_not_over_visible_count :
  let m := toy half in
  let draws := [three_quarters; quarter] in
  visible_count m two_events draws 0 = 1%nat /\
  events_of two_events 0 = 2%nat /\
  this (summed_bias m two_events draws 0) = 12%Q /\
  option_map this (mean_bias m two_events draws 0) = Some 4%Q /\
  mean_bias m two_events draws 0
    <> Some (summed_bias m two_events draws 0
             / (float (visible_count m two_events draws 0) + 1)).
Proof.
  repeat split; try (vm_compute; reflexivity).
  intros H. apply (f_equal (option_map this)) in H. vm_compute in H. discriminate.
Qed.

(** C3.  On every batch the forward pass accepts, the prediction of every
    event is the mean bias of its user, plus the decoder bias of its item,
    plus the dot product of the user's mean vector with the item's decoder
    vector.  The decoder bias and vector are rows of [decoder_bias] and
    [decoder_vect], tables of their own: whatever the encoder tables hold,
    the decoder step returns the same predictions from the same means. *)
Theorem prediction_formula (n_enc n_dec : nat) (m : MFAE)
  (indices : list features) (draws : list Qc) :
  valid_batch n_enc n_dec m indices draws ->
  exists ub uv out,
    encode m indices draws = Some (ub, uv) /\
    call m indices draws = Some out /\
    (forall j e, nth_error indices j = Some e ->
       nth_error out j
         = Some [bias_at ub (col0 e) + bias_at (decoder_bias m) (col1 e)
                 + dot (vect_at uv (col0 e)) (vect_at (decoder_vect m) (col1 e))]) /\
    forall eb ev,
      decode (mkMFAE (k m) (c_vector m) (frac m) eb ev (decoder_bias m) (decoder_vect m))
        indices ub uv = Some out.
Proof.
  intros V.
  destruct (call_spec _ _ _ _ _ V) as (mx & ub & uv & out & _ & E & C & _ & _ & _ & _ & P).
  exists ub, uv, out. repeat split; try assumption.
  intros eb ev. unfold call in C. rewrite E in C. exact C.
Qed.

(** Witness for C3: the two-event batch, second event masked; the
    predictions are [4 + 1 + 4 = 9] and [4 + 2 + 13/3 = 31/3]. *)
Lemma prediction_formula_witness :
  exists out,
    call (toy half) two_events [three_quarters; quarter] = Some out /\
    map (map this) out = [[9%Q]; [(31 # 3)%Q]].
Proof.
  destruct (prediction_formula _ _ _ _ _
              (toy_valid half three_quarters quarter)) as (ub & uv & out & _ & C & _).
  exists out. split; [exact C|].
  assert (E : Some (map (map this) out) = Some [[9%Q]; [(31 # 3)%Q]]).
  { change (Some (map (map this) out)) with (option_map (map (map this)) (Some out)).
    rewrite <- C. vm_compute. reflexivity. }
  now injection E.
Defined.

(** C4.  On every batch the forward pass accepts it returns one prediction
    per event, at the position of the event, and this whether the mask let
    the event through to the encoder ([b = true]) or not ([b = false]). *)
Theorem one_prediction_per_event (n_enc n_dec : nat) (m : MFAE)
  (indices : list features) (draws : list Qc) :
  valid_batch n_enc n_dec m indices draws ->
  exists ub uv out,
    encode m indices draws = Some (ub, uv) /\
    call m indices draws = Some out /\
    length out = length indices /\
    forall j e b,
      nth_error indices j = Some e ->
      nth_error (mask_of m draws) j = Some b ->
      nth_error out j
        = Some [bias_at ub (col0 e) + bias_at (decoder_bias m) (col1 e)
                + dot (vect_at uv (col0 e)) (vect_at (decoder_vect m) (col1 e))].
Proof.
  intros V.
  destruct (call_spec _ _ _ _ _ V) as (mx & ub & uv & out & _ & E & C & _ & _ & _ & L & P).
  exists ub, uv, out. repeat split; try assumption.
  intros j e b Hj _. now apply P.
Qed.

(** Witness for C4: two events in, two predictions out, the second for the
    masked event. *)
Lemma one_prediction_per_event_witness :
  exists out,
    call (toy half) two_events [three_quarters; quarter] = Some out /\
    length out = 2%nat /\
    mask_of (toy half) [three_quarters; quarter] = [true; false].
Proof.
  destruct (one_prediction_per_event _ _ _ _ _
              (toy_valid half three_quarters quarter)) as (ub & uv & out & _ & C & L & _).
  exists out. split; [exact C|]. split; [exact L|]. vm_compute. reflexivity.
Defined.

(** With [frac = 0] a draw passes the mask exactly when it is positive. *)
Lemma mask_all_true (m : MFAE) (draws : list Qc) :
  frac m = 0 -> Forall (fun d => 0 < d) draws ->
  mask_of m draws = repeat true (length draws).
Proof.
  intros Hf. unfold mask_of. rewrite Hf.
  induction 1 as [|d l Hd _ IH]; simpl; [reflexivity|].
  rewrite IH. f_equal. now apply gtb_lt.
Qed.

(** The forward pass reads the draws through the mask only. *)
Lemma call_mask (m : MFAE) (indices : list features) (draws draws' : list Qc) :
  mask_of m draws = mask_of m draws' ->
  call m indices draws = call m indices draws'.
Proof.
  intros H. unfold call, encode. now rewrite H.
Qed.

(** C5 (as the code has it).  With [frac = 0.0], two calls on the same batch
    with the same tables return the same predictions whenever all their
    draws are positive: then every event is visible.  ([torch.rand] draws
    from [[0, 1)]; the mask is the strict [draw > frac], so a draw of
    exactly [0.0] still hides its event.) *)
Theorem frac_zero_deterministic (m : MFAE) (indices : list features)
  (draws1 draws2 : list Qc) :
  frac m = 0 ->
  length draws1 = length indices ->
  length draws2 = length indices ->
  Forall (fun d => 0 < d) draws1 ->
  Forall (fun d => 0 < d) draws2 ->
  call m indices draws1 = call m indices draws2 /\
  visible m indices draws1 = indices /\
  visible m indices draws2 = indices.
Proof.
  intros Hf L1 L2 P1 P2.
  pose proof (mask_all_true m draws1 Hf P1) as M1.
  pose proof (mask_all_true m draws2 Hf P2) as M2.
  split; [|split].
  - apply call_mask. now rewrite M1, M2, L1, L2.
  - unfold visible. rewrite M1. apply select_all.
    + now rewrite repeat_length.
    + apply Forall_forall. intros b Hb. now apply repeat_spec in Hb.
  - unfold visible. rewrite M2. apply select_all.
    + now rewrite repeat_length.
    + apply Forall_forall. intros b Hb. now apply repeat_spec in Hb.
Qed.

(** Witness for C5: the two-event batch with draws [3/4, 1/4] and
    [1/2, 1/2]. *)
Lemma frac_zero_deterministic_witness :
  call (toy 0) two_events [three_quarters; quarter]
    = call (toy 0) two_events [half; half].
Proof.
  apply (frac_zero_deterministic (toy 0) two_events
           [three_quarters; quarter] [half; half]);
    try reflexivity; repeat constructor.
Defined.

(** C5 (the claim as stated fails).  One event, [frac = 0]: with the draw
    [0] the event is hidden and the prediction is the decoder bias [1]; with
    the draw [1/2] it is visible and the prediction is [6 + 1 + 6 = 13]. *)
Lemma zero_draw_still_masks :
  frac (toy 0) = 0 /\
  mask_of (toy 0) [0] = [false] /\
  option_map (map (map this)) (call (toy 0) one_event [0]) = Some [[1%Q]] /\
  option_map (map (map this)) (call (toy 0) one_event [half]) = Some [[13%Q]] /\
  call (toy 0) one_event [0] <> call (toy 0) one_event [half].
Proof.
  repeat split; try (vm_compute; reflexivity).
  intros H. apply (f_equal (option_map (map (map this)))) in H.
  vm_compute in H. discriminate.
Qed.

(** ** The loss *)

Lemma l2_regularize_nonneg (t : tensor) : 0 <= l2_regularize t.
Proof.
  unfold l2_regularize. apply Qcsum_nonneg.
  apply Forall_forall. intros v Hv. apply in_map_iff in Hv as (x & <- & _).
  apply Qc_sq_nonneg.
Qed.

Lemma mse_loss_nonneg (input target : tensor) : 0 <= mse_loss input target.
Proof.
  unfold mse_loss, Qcdiv. apply Qc_mult_nonneg.
  - apply Qcsum_nonneg.
    apply Forall_forall. intros v Hv. apply in_map_iff in Hv as (x & <- & _).
    apply Qc_sq_nonneg.
  - apply Qc_inv_nonneg, float_nonneg.
Qed.

Lemma float_pos (n : nat) : (0 < n)%nat -> 0 < float n.
Proof.
  intros Hn. destruct (Qcle_lt_or_eq _ _ (float_nonneg n)) as [H|H]; [exact H|].
  exfalso. symmetry in H. apply (f_equal this) in H.
  unfold float, Q2Qc in H. cbn [this] in H.
  assert (E : (inject_Z (Z.of_nat n) == 0)%Q).
  { rewrite <- (Qred_correct (inject_Z (Z.of_nat n))), H. reflexivity. }
  unfold Qeq in E. cbn [Qnum Qden inject_Z] in E. lia.
Qed.

Lemma Qcsum_app (a b : list Qc) : Qcsum (a ++ b) = Qcsum a + Qcsum b.
Proof.
  induction a as [|v a IH]; simpl; [ring|]. rewrite IH. ring.
Qed.

(** [l2_regularize] computes the sum of the squares of the entries. *)
Lemma l2_regularize_sum_of_squares (t : tensor) :
  l2_regularize t = sum_of_squares t.
Proof.
  unfold l2_regularize. induction t as [|r t IH]; simpl; [reflexivity|].
  rewrite map_app, Qcsum_app, IH. f_equal.
  clear. induction r as [|v r IH]; simpl; [reflexivity|]. now rewrite IH.
Qed.

Lemma column_differences (pred target : list Qc) :
  concat (map2 (map2 Qcminus) (column pred) (column target))
    = map2 Qcminus pred target.
Proof.
  revert target. induction pred as [|p pred IH]; intros [|t target]; simpl;
    try reflexivity.
  now rewrite IH.
Qed.

Lemma squared_differences_sum (pred target : list Qc) :
  Qcsum (map (fun d => d * d) (map2 Qcminus pred target))
    = squared_error_sum pred target.
Proof.
  revert target. induction pred as [|p pred IH]; intros [|t target]; simpl;
    try reflexivity.
  now rewrite IH.
Qed.

(** On two vectors of one length, [F.mse_loss] computes their mean squared
    error. *)
Lemma mse_loss_column (pred target : list Qc) :
  length pred = length target ->
  mse_loss (column pred) (column target) = mean_squared_error pred target.
Proof.
  intros L. unfold mse_loss, mean_squared_error.
  rewrite column_differences, squared_differences_sum.
  now rewrite length_map, length_map2.
Qed.

Lemma squared_error_sum_nonneg (pred target : list Qc) :
  0 <= squared_error_sum pred target.
Proof.
  rewrite <- squared_differences_sum. apply Qcsum_nonneg.
  apply Forall_forall. intros v Hv. apply in_map_iff in Hv as (x & <- & _).
  apply Qc_sq_nonneg.
Qed.

(** C6.  For a non-empty prediction vector and a target vector of the same
    length (as the [(n, 1)] tensors the notebook passes), the loss is the
    mean squared error between them, plus [c] times the sum of the squares
    of the entries of the encoder vector table, plus [c] times that of the
    decoder vector table.  The mean divides by a positive number of events.
    The bias tables play no part: two models with the same constant and the
    same vector tables have the same loss.  With [c >= 0] the loss is not
    negative, and with [c = 0] it is the mean squared error, not negative. *)
Theorem loss_decomposition (m : MFAE) (pred target : list Qc) :
  pred <> [] ->
  length pred = length target ->
  loss m (column pred) (column target)
    = mean_squared_error pred target
      + c_vector m * sum_of_squares (encoder_vect m)
      + c_vector m * sum_of_squares (decoder_vect m) /\
  0 < float (length pred) /\
  (forall m',
     c_vector m' = c_vector m ->
     encoder_vect m' = encoder_vect m ->
     decoder_vect m' = decoder_vect m ->
     loss m' (column pred) (column target) = loss m (column pred) (column target)) /\
  (0 <= c_vector m -> 0 <= loss m (column pred) (column target)) /\
  (c_vector m = 0 ->
     loss m (column pred) (column target) = mean_squared_error pred target /\
     0 <= loss m (column pred) (column target)).
Proof.
  intros Hne Hlen.
  assert (Hn : 0 < float (length pred)).
  { apply float_pos. destruct pred; [congruence|simpl; lia]. }
  assert (D : loss m (column pred) (column target)
              = mean_squared_error pred target
                + c_vector m * sum_of_squares (encoder_vect m)
                + c_vector m * sum_of_squares (decoder_vect m)).
  { unfold loss. rewrite (mse_loss_column pred target Hlen).
    rewrite !l2_regularize_sum_of_squares. ring. }
  assert (M : 0 <= mean_squared_error pred target).
  { unfold mean_squared_error, Qcdiv. apply Qc_mult_nonneg.
    - apply squared_error_sum_nonneg.
    - apply Qc_inv_nonneg, Qclt_le_weak, Hn. }
  split; [exact D|]. split; [exact Hn|]. split; [|split].
  - intros m' Hc He Hd. unfold loss. now rewrite Hc, He, Hd.
  - intros Hc. rewrite D.
    repeat apply Qc_plus_nonneg; try exact M;
      apply Qc_mult_nonneg; try exact Hc;
      rewrite <- l2_regularize_sum_of_squares; apply l2_regularize_nonneg.
  - intros Hc.
    assert (E : loss m (column pred) (column target) = mean_squared_error pred target)
      by (rewrite D, Hc; ring).
    split; [exact E|]. rewrite E. exact M.
Qed.

(** Witness for C6: predictions [1, 3] against targets [0, 1], mean squared
    error [(1 + 4) / 2], with the toy tables and [c = 1]. *)
Lemma loss_decomposition_witness :
  loss (toy half) (column [1; 1 + 1 + 1]) (column [0; 1])
    = mean_squared_error [1; 1 + 1 + 1] [0; 1]
      + c_vector (toy half) * sum_of_squares (encoder_vect (toy half))
      + c_vector (toy half) * sum_of_squares (decoder_vect (toy half)) /\
  this (mean_squared_error [1; 1 + 1 + 1] [0; 1]) = (5 # 2)%Q /\
  0 <= loss (toy half) (column [1; 1 + 1 + 1]) (column [0; 1]).
Proof.
  destruct (loss_decomposition (toy half) [1; 1 + 1 + 1] [0; 1])
    as (E & _ & _ & P & _); [discriminate|reflexivity|].
  split; [exact E|]. split; [vm_compute; reflexivity|].
  apply P. vm_compute. discriminate.
Defined.

(** ** Users without visible events, and index ranges *)

Lemma dot_zeros_l (w : nat) (b : row) : dot (zeros w) b = 0.
Proof.
  unfold dot, vmul, zeros. revert b.
  induction w as [|w IH]; intros [|y b]; simpl; try reflexivity.
  rewrite IH. ring.
Qed.



(** C8.  On every batch the forward pass accepts, the per-user mean arrays
    have one row for every id from [0] to the largest user id of the batch,
    so the user id of every event is a valid row of both and the lookup of
    the decoder step succeeds. *)
Theorem user_lookup_in_range (n_enc n_dec : nat) (m : MFAE)
  (indices : list features) (draws : list Qc) :
  valid_batch n_enc n_dec m indices draws ->
  exists mx ub uv,
    max_opt (map col0 indices) = Some mx /\
    encode m indices draws = Some (ub, uv) /\
    length ub = S mx /\
    length uv = S mx /\
    (forall e, In e indices ->
       (col0 e < length ub)%nat /\ (col0 e < length uv)%nat) /\
    gather ub (map col0 indices) = Some (map (fun e => vect_at ub (col0 e)) indices) /\
    gather uv (map col0 indices) = Some (map (fun e => vect_at uv (col0 e)) indices).
Proof.
  intros V.
  destruct (encode_spec _ _ _ _ _ V) as (mx & ub & uv & Hmx & E & Lb & Lv & _).
  pose proof (max_opt_bound _ _ Hmx) as F. rewrite Forall_map in F.
  exists mx, ub, uv. repeat split; try assumption.
  - rewrite Lb. rewrite Forall_forall in F. now apply F.
  - rewrite Lv. rewrite Forall_forall in F. now apply F.
  - apply gather_map. now rewrite Lb.
  - apply gather_map. now rewrite Lv.
Qed.

(** Witness for C8: the two-event batch, whose only user id is [0]. *)
Lemma user_lookup_in_range_witness :
  exists ub uv,
    encode (toy half) two_events [three_quarters; quarter] = Some (ub, uv) /\
    length ub = 1%nat /\ length uv = 1%nat.
Proof.
  destruct (user_lookup_in_range _ _ _ _ _
              (toy_valid half three_quarters quarter))
    as (mx & ub & uv & Hmx & E & Lb & Lv & _).
  injection Hmx as <-.
  exists ub, uv. repeat split; assumption.
Defined.

(** ** The item-rating code *)

Local Open Scope nat_scope.

(** C9 (as the code has it).  For an item id of at most [n_item] and a
    rating level of at most [10], the item-rating code is a row of the
    encoder table of [n_item * 10 + 1] rows exactly when the item id is
    below [n_item] or the rating level is [0]. *)
Theorem code_in_encoder_range (n_item item_id rating w : nat) (t : tensor) :
  item_id <= n_item ->
  rating <= 10 ->
  shaped (n_item_enc n_item) w t ->
  (item_code item_id rating < n_item_enc n_item <-> item_id < n_item \/ rating = 0) /\
  (nth_error t (item_code item_id rating) <> None <-> item_id < n_item \/ rating = 0).
Proof.
  intros Hi Hr [Hn _].
  assert (R : item_code item_id rating < n_item_enc n_item
              <-> item_id < n_item \/ rating = 0)
    by (unfold item_code, n_item_enc; lia).
  split; [exact R|].
  rewrite nth_error_Some, Hn. exact R.
Qed.

(** Witness for C9: two items; item [1] rated [5] has the code [15], a row
    of the [21]-row encoder table. *)
Lemma code_in_encoder_range_witness :
  item_code 1 5 < n_item_enc 2 /\
  nth_error (encoder_vect (toy half)) (item_code 1 5) <> None.
Proof.
  destruct (code_in_encoder_range 2 1 5 2 (encoder_vect (toy half))) as [A B].
  - lia.
  - lia.
  - split; [reflexivity|repeat constructor].
  - split; [apply A; left; lia|apply B; left; lia].
Defined.

(** C9 (the claim as stated fails).  Two items: the item id [2] is at most
    [n_item] and the rating level [1] at most [10], but the code [21] is
    not a row of the encoder table of [21] rows, and the forward pass fails
    on a batch where this event is visible. *)
Lemma last_item_code_out_of_range :
  2 <= 2 /\ 1 <= 10 /\
  item_code 2 1 = 21 /\
  n_item_enc 2 = 21 /\
  ~ item_code 2 1 < n_item_enc 2 /\
  nth_error (encoder_bias (toy half)) (item_code 2 1) = None /\
  call (toy half) [hstack_code 0 2 0 0 1] [three_quarters] = None.
Proof.
  repeat split; try lia; try (vm_compute; reflexivity).
  unfold item_code, n_item_enc. lia.
Qed.

(** * Further properties of the notebook's code *)

(** ** The item-rating code *)

Local Open Scope nat_scope.

(** X1.  A rating level below ten can be read back from the code, with its item:
    the code is the item id shifted by one decimal digit.  So two events
    with levels below ten have the same code only if they have the same
    item and the same level. *)
Theorem item_code_decodes (item_id rating : nat) :
  rating < 10 ->
  item_code item_id rating / 10 = item_id /\
  item_code item_id rating mod 10 = rating /\
  forall item_id' rating',
    rating' < 10 ->
    item_code item_id rating = item_code item_id' rating' ->
    item_id = item_id' /\ rating = rating'.
Proof.
  intros Hr. unfold item_code.
  split; [|split].
  - symmetry. apply Nat.div_unique with (r := rating); lia.
  - symmetry. apply Nat.mod_unique with (q := item_id); lia.
  - intros i' r' Hr' H. lia.
Qed.

Lemma item_code_decodes_witness :
  item_code 1193 5 / 10 = 1193 /\ item_code 1193 5 mod 10 = 5.
Proof.
  destruct (item_code_decodes 1193 5) as (A & B & _); [lia|].
  split; assumption.
Defined.

(** X2.  A rating level of ten or more is not kept apart: the code of
    [(item, level)] is the code of a later item with the level reduced
    modulo ten. *)
Theorem item_code_collides (item_id rating : nat) :
  item_code item_id rating = item_code (item_id + rating / 10) (rating mod 10).
Proof.
  unfold item_code.
  pose proof (Nat.div_mod_eq rating 10). lia.
Qed.

(** ** The batch loader: what a traversal covers *)

Lemma firstn_plus {A : Type} (p q : nat) : forall (a : list A),
  firstn (p + q) a = firstn p a ++ firstn q (skipn p a).
Proof.
  induction p as [|p IH]; intros [|u a]; simpl; try reflexivity.
  - now rewrite firstn_nil.
  - now rewrite IH.
Qed.

(** Consecutive slices of [n] rows put end to end are a prefix. *)
Lemma concat_slices {A : Type} (a : list A) (n cnt : nat) :
  concat (map (fun j => Loader.slice a (0 + j * n) (0 + j * n + n)) (seq 0 cnt))
    = firstn (cnt * n) a.
Proof.
  induction cnt as [|cnt IH]; [reflexivity|].
  rewrite seq_S, map_app, concat_app, IH. simpl map. simpl concat.
  rewrite app_nil_r. unfold Loader.slice.
  replace (0 + (0 + cnt) * n) with (cnt * n) by lia.
  replace (cnt * n + n - cnt * n) with n by lia.
  replace (S cnt * n) with (cnt * n + n) by lia.
  now rewrite firstn_plus.
Qed.

(** A traversal without shuffling, whatever the cursor was before. *)
Lemma traverse_unshuffled_eq {X Y : Type} (seeded : nat -> list nat)
  (l : @Loader.t X Y) :
  Loader.do_shuffle l = false ->
  0 < Loader.batchsize l ->
  Loader.traverse seeded l =
    Some (map (batch_at (Loader.x l) (Loader.y l) (Loader.batchsize l) 0)
            (seq 0 ((length (Loader.y l) - 1) / Loader.batchsize l)),
          Loader.mk (Loader.x l) (Loader.y l) (Loader.batchsize l) false
            ((length (Loader.y l) - 1) / Loader.batchsize l * Loader.batchsize l)).
Proof.
  intros Hs Hn. unfold Loader.traverse, Loader.iter. rewrite Hs. simpl.
  set (l0 := Loader.mk _ _ _ _ _).
  pose proof (drain_spec (length (Loader.y l)) l0 Hn (batches_from_le _ _ _ Hn)) as E.
  change (Loader.y l0) with (Loader.y l) in E.
  rewrite E. subst l0. simpl. unfold batches_from. now rewrite Nat.sub_0_r.
Qed.

Lemma dropped_rows (len n : nat) :
  0 < n ->
  (len - 1) / n * n <= len /\
  (0 < len -> (len - 1) / n * n < len) /\
  len - (len - 1) / n * n <= n.
Proof.
  intros Hn.
  pose proof (Nat.div_mod_eq (len - 1) n) as E.
  pose proof (Nat.mod_upper_bound (len - 1) n) as U.
  nia.
Qed.

(** X3.  Without shuffling, the batches of one traversal put end to end are the
    first [((N - 1) / B) * B] rows of the arrays, in their order: no row is
    yielded twice.  Between one and [B] rows at the end are never yielded;
    in particular the last row of a non-empty dataset never is. *)
Theorem traverse_yields_prefix {X Y : Type} (seeded : nat -> list nat)
  (l : @Loader.t X Y) :
  Loader.do_shuffle l = false ->
  0 < Loader.batchsize l ->
  length (Loader.x l) = length (Loader.y l) ->
  let yielded := (length (Loader.y l) - 1) / Loader.batchsize l * Loader.batchsize l in
  exists bs l',
    Loader.traverse seeded l = Some (bs, l') /\
    concat (map fst bs) = firstn yielded (Loader.x l) /\
    concat (map snd bs) = firstn yielded (Loader.y l) /\
    Loader.rows_yielded bs = yielded /\
    (0 < length (Loader.y l) -> yielded < length (Loader.y l)) /\
    length (Loader.y l) - yielded <= Loader.batchsize l.
Proof.
  intros Hs Hn Hlen yielded.
  destruct (dropped_rows (length (Loader.y l)) _ Hn) as (D1 & D2 & D3).
  eexists _, _. split; [now apply traverse_unshuffled_eq|].
  assert (Cx : concat (map fst (map (batch_at (Loader.x l) (Loader.y l) (Loader.batchsize l) 0)
                 (seq 0 ((length (Loader.y l) - 1) / Loader.batchsize l))))
               = firstn yielded (Loader.x l)).
  { rewrite map_map. unfold batch_at. simpl fst. apply concat_slices. }
  repeat split; try assumption.
  - rewrite map_map. unfold batch_at. simpl snd. apply concat_slices.
  - unfold Loader.rows_yielded.
    rewrite <- (map_map fst (@length X)), <- length_concat, Cx, length_firstn.
    fold yielded in D1. lia.
Qed.

Lemma traverse_yields_prefix_witness :
  exists bs l',
    Loader.traverse (fun n => seq 0 n) five_rows = Some (bs, l') /\
    concat (map fst bs) = [0; 1; 2; 3].
Proof.
  destruct (traverse_yields_prefix (fun n => seq 0 n) five_rows)
    as (bs & l' & T & C & _); try reflexivity.
  - simpl. lia.
  - exists bs, l'. split; assumption.
Defined.

(** X4.  Without shuffling, one traversal yields the consecutive slices at the
    offsets [0], [B], [2B], ... for as long as [offset + B < N]: that is
    [(N - 1) / B] batches, of exactly [B] rows each, after which [__next__]
    raises [StopIteration]. *)
Theorem unshuffled_traversal_batches {X Y : Type} (seeded : nat -> list nat)
  (l : @Loader.t X Y) :
  Loader.do_shuffle l = false ->
  0 < Loader.batchsize l ->
  length (Loader.x l) = length (Loader.y l) ->
  exists bs l',
    Loader.traverse seeded l = Some (bs, l') /\
    bs = map (batch_at (Loader.x l) (Loader.y l) (Loader.batchsize l) 0)
             (seq 0 ((length (Loader.y l) - 1) / Loader.batchsize l)) /\
    Forall (fun b => length (fst b) = Loader.batchsize l /\
                     length (snd b) = Loader.batchsize l) bs /\
    Loader.rows_yielded bs
      = (length (Loader.y l) - 1) / Loader.batchsize l * Loader.batchsize l /\
    Loader.next l' = None.
Proof.
  intros Hs Hn Hlen.
  destruct (dropped_rows (length (Loader.y l)) _ Hn) as (D1 & _ & D3).
  eexists _, _. split; [now apply traverse_unshuffled_eq|].
  split; [reflexivity|].
  split; [|split].
  - apply Forall_forall. intros b Hb. apply in_map_iff in Hb as (j & <- & Hj).
    apply in_seq in Hj. unfold batch_at. cbn [fst snd].
    assert (j * Loader.batchsize l + Loader.batchsize l < length (Loader.y l)).
    { apply batches_from_in_range; [assumption|]. unfold batches_from.
      rewrite Nat.sub_0_r. lia. }
    split; apply slice_length; lia.
  - unfold Loader.rows_yielded.
    rewrite <- (map_map fst (@length X)), <- length_concat, map_map.
    unfold batch_at. cbn [fst]. rewrite concat_slices, length_firstn. lia.
  - apply next_none. simpl. lia.
Qed.

Lemma unshuffled_traversal_batches_witness :
  exists bs l',
    Loader.traverse (fun n => seq 0 n) five_rows = Some (bs, l') /\
    bs = [([0; 1], [10; 11]); ([2; 3], [12; 13])] /\
    Loader.next l' = None.
Proof.
  destruct (unshuffled_traversal_batches (fun n => seq 0 n) five_rows)
    as (bs & l' & T & B & _ & _ & S); try reflexivity.
  - simpl. lia.
  - exists bs, l'. repeat split; assumption.
Defined.

(** X5.  [__len__] against the batches a traversal yields (no shuffling): they
    agree when the batch size does not divide the number of rows; when it
    does, on a non-empty dataset, [__len__] counts one batch more than the
    traversal yields. *)
Theorem len_counts_dropped_batch {X Y : Type} (seeded : nat -> list nat)
  (l : @Loader.t X Y) :
  Loader.do_shuffle l = false ->
  0 < Loader.batchsize l ->
  length (Loader.x l) = length (Loader.y l) ->
  exists bs l',
    Loader.traverse seeded l = Some (bs, l') /\
    (length (Loader.y l) mod Loader.batchsize l <> 0 -> length bs = Loader.len l) /\
    (length (Loader.y l) = 0 -> length bs = 0 /\ Loader.len l = 0) /\
    (length (Loader.y l) mod Loader.batchsize l = 0 -> 0 < length (Loader.y l) ->
       S (length bs) = Loader.len l).
Proof.
  intros Hs Hn Hlen.
  eexists _, _. split; [now apply traverse_unshuffled_eq|].
  rewrite length_map, length_seq. unfold Loader.len. rewrite Hlen.
  generalize dependent (length (Loader.y l)). intros N _.
  generalize dependent (Loader.batchsize l). intros B Hn.
  pose proof (Nat.div_mod_eq N B) as E.
  pose proof (Nat.mod_upper_bound N B) as U.
  split; [|split].
  - intros Hm. symmetry. apply Nat.div_unique with (r := N mod B - 1); lia.
  - intros ->. split; now apply Nat.div_small.
  - intros Hm Hp.
    assert (Q : 0 < N / B) by nia.
    assert (R : (N - 1) / B = N / B - 1)
      by (symmetry; apply Nat.div_unique with (r := B - 1); nia).
    lia.
Qed.

Lemma len_counts_dropped_batch_witness :
  exists bs l',
    Loader.traverse (fun n => seq 0 n) four_rows = Some (bs, l') /\
    S (length bs) = Loader.len four_rows.
Proof.
  destruct (len_counts_dropped_batch (fun n => seq 0 n) four_rows)
    as (bs & l' & T & _ & _ & D); try reflexivity.
  - simpl. lia.
  - exists bs, l'. split; [exact T|]. apply D; [reflexivity|simpl; lia].
Defined.

(** ** The batch loader over several epochs *)

Lemma epochs_unshuffled {X Y : Type} (seeded : nat -> list nat)
  (xs : list X) (ys : list Y) (n k : nat) : forall c,
  0 < n ->
  exists l',
    epochs seeded k (Loader.mk xs ys n false c)
      = Some (repeat (map (batch_at xs ys n 0) (seq 0 ((length ys - 1) / n))) k, l') /\
    Loader.x l' = xs /\ Loader.y l' = ys.
Proof.
  induction k as [|k IH]; intros c Hn.
  - eexists. simpl. auto.
  - cbn [epochs]. rewrite traverse_unshuffled_eq by (simpl; auto).
    cbn [bind fst snd Loader.x Loader.y Loader.batchsize].
    destruct (IH ((length ys - 1) / n * n) Hn) as (l' & E & Hx & Hy).
    exists l'. rewrite E. cbn [bind fst snd]. auto.
Qed.

(** X6.  Without shuffling, every epoch yields the same batches: a restart only
    resets the cursor, and the arrays are never touched. *)
Theorem unshuffled_epochs_repeat {X Y : Type} (seeded : nat -> list nat)
  (l : @Loader.t X Y) (k : nat) :
  Loader.do_shuffle l = false ->
  0 < Loader.batchsize l ->
  exists bs l1 l',
    Loader.traverse seeded l = Some (bs, l1) /\
    epochs seeded k l = Some (repeat bs k, l') /\
    Loader.x l' = Loader.x l /\ Loader.y l' = Loader.y l.
Proof.
  intros Hs Hn.
  destruct (epochs_unshuffled seeded (Loader.x l) (Loader.y l) (Loader.batchsize l) k
              (Loader.current l) Hn) as (l' & E & Hx & Hy).
  eexists _, _, l'. split; [now apply traverse_unshuffled_eq|].
  split; [|split; assumption].
  rewrite <- E. f_equal. destruct l; simpl in *. now subst.
Qed.

(** Three epochs over five rows in batches of two: the same two batches
    three times. *)
Lemma unshuffled_epochs_repeat_witness :
  exists l',
    epochs (fun n => seq 0 n) 3 five_rows
      = Some (repeat [([0; 1], [10; 11]); ([2; 3], [12; 13])] 3, l').
Proof.
  destruct (unshuffled_epochs_repeat (fun n => seq 0 n) five_rows 3)
    as (bs & l1 & l' & T & E & _); try reflexivity.
  - simpl. lia.
  - exists l'. rewrite E. injection T as <- _. reflexivity.
Defined.

(** X7.  With shuffling on, the batches of one traversal put end to end are a
    prefix of the permuted rows: every (feature, target) row of the dataset
    is yielded at most once, still paired, and the rows left out are the
    last ones of the permuted arrays. *)
Theorem shuffled_traversal_yields_rows_once {X Y : Type}
  (seeded : nat -> list nat) (l : @Loader.t X Y) :
  Loader.do_shuffle l = true ->
  0 < Loader.batchsize l ->
  length (Loader.x l) = length (Loader.y l) ->
  Permutation (seeded (length (Loader.x l))) (seq 0 (length (Loader.x l))) ->
  let rows := combine (Loader.x l) (Loader.y l) in
  let yielded := (length (Loader.y l) - 1) / Loader.batchsize l * Loader.batchsize l in
  exists bs l' rest,
    Loader.traverse seeded l = Some (bs, l') /\
    concat (map (fun b => combine (fst b) (snd b)) bs)
      = firstn yielded (Loader.take (seeded (length (Loader.x l))) rows) /\
    Permutation (concat (map (fun b => combine (fst b) (snd b)) bs) ++ rest) rows /\
    length rest = length (Loader.y l) - yielded.
Proof.
  intros Hs Hn Hlen Hperm rows yielded.
  set (order := seeded (length (Loader.x l))) in *.
  pose proof (take_permutation order (Loader.x l) Hperm) as Px.
  assert (Py : Permutation (Loader.take order (Loader.y l)) (Loader.y l))
    by (apply take_permutation; now rewrite <- Hlen).
  assert (Lr : length rows = length (Loader.x l))
    by (unfold rows; rewrite length_combine; lia).
  assert (Pr : Permutation (Loader.take order rows) rows)
    by (apply take_permutation; now rewrite Lr).
  set (l0 := Loader.mk (Loader.take order (Loader.x l)) (Loader.take order (Loader.y l))
               (Loader.batchsize l) true 0).
  assert (Ly0 : length (Loader.y l0) = length (Loader.y l))
    by (simpl; apply (Permutation_length Py)).
  pose proof (drain_spec (length (Loader.y l0)) l0 Hn (batches_from_le _ _ _ Hn)) as D.
  unfold batches_from in D. simpl Loader.current in D. rewrite Nat.sub_0_r in D.
  eexists _, _, (skipn yielded (Loader.take order rows)).
  split.
  { unfold Loader.traverse. rewrite iter_shuffled by assumption.
    cbn [bind]. fold order. fold l0. rewrite D. reflexivity. }
  assert (C : concat (map (fun b => combine (fst b) (snd b))
                 (map (batch_at (Loader.x l0) (Loader.y l0) (Loader.batchsize l0) 0)
                    (seq 0 ((length (Loader.y l0) - 1) / Loader.batchsize l0))))
              = firstn yielded (Loader.take order rows)).
  { rewrite map_map. unfold batch_at. cbn [fst snd].
    rewrite (map_ext _ (fun j => Loader.slice (combine (Loader.x l0) (Loader.y l0))
                                  (0 + j * Loader.batchsize l0)
                                  (0 + j * Loader.batchsize l0 + Loader.batchsize l0)))
      by (intros; apply slice_combine).
    rewrite concat_slices, Ly0. simpl. now rewrite take_combine. }
  split; [exact C|]. split.
  - rewrite C, firstn_skipn. exact Pr.
  - rewrite length_skipn, (Permutation_length Pr), Lr, Hlen. reflexivity.
Qed.

(** Three rows in batches of one, the seeded order reversing them: two
    rows are yielded, one is left out. *)
Lemma shuffled_traversal_yields_rows_once_witness :
  exists bs l' (rest : list (nat * nat)),
    Loader.traverse (fun n => rev (seq 0 n)) three_rows = Some (bs, l') /\
    concat (map (fun b => combine (fst b) (snd b)) bs) = [(2, 12); (1, 11)] /\
    length rest = 1.
Proof.
  destruct (shuffled_traversal_yields_rows_once (fun n => rev (seq 0 n)) three_rows)
    as (bs & l' & rest & T & C & _ & L); try reflexivity.
  - simpl. lia.
  - symmetry. apply Permutation_rev.
  - exists bs, l', rest. repeat split; assumption.
Defined.

Lemma traverse_shuffled_arrays {X Y : Type} (seeded : nat -> list nat)
  (l : @Loader.t X Y) :
  Loader.do_shuffle l = true ->
  length (Loader.x l) = length (Loader.y l) ->
  Permutation (seeded (length (Loader.x l))) (seq 0 (length (Loader.x l))) ->
  exists bs l1,
    Loader.traverse seeded l = Some (bs, l1) /\
    Loader.do_shuffle l1 = true /\
    length (Loader.x l1) = length (Loader.y l1) /\
    length (Loader.x l1) = length (Loader.x l) /\
    combine (Loader.x l1) (Loader.y l1)
      = Loader.take (seeded (length (Loader.x l))) (combine (Loader.x l) (Loader.y l)).
Proof.
  intros Hs Hlen Hperm.
  set (order := seeded (length (Loader.x l))) in *.
  pose proof (Permutation_length (take_permutation order (Loader.x l) Hperm)) as Lx.
  assert (Ly : length (Loader.take order (Loader.y l)) = length (Loader.y l))
    by (apply Permutation_length, take_permutation; now rewrite <- Hlen).
  unfold Loader.traverse. rewrite iter_shuffled by assumption. cbn [bind]. fold order.
  match goal with |- context [Loader.drain ?f ?l0] =>
    pose proof (drain_arrays f l0) as (Ax & Ay & _ & As);
    destruct (Loader.drain f l0) as [bs l1] end.
  simpl in Ax, Ay, As.
  exists bs, l1. split; [reflexivity|].
  rewrite Ax, Ay. repeat split; try assumption; try lia.
  now apply take_combine.
Qed.

(** X8.  With shuffling on, [k] epochs leave the arrays with the seeded order
    applied [k] times to the rows the loader started from, features and
    targets still paired; one batch list is yielded per epoch. *)
Theorem shuffled_epochs_compose {X Y : Type} (seeded : nat -> list nat) (k : nat) :
  forall (l : @Loader.t X Y),
  Loader.do_shuffle l = true ->
  length (Loader.x l) = length (Loader.y l) ->
  Permutation (seeded (length (Loader.x l))) (seq 0 (length (Loader.x l))) ->
  let rows := combine (Loader.x l) (Loader.y l) in
  exists bss l',
    epochs seeded k l = Some (bss, l') /\
    length bss = k /\
    combine (Loader.x l') (Loader.y l')
      = Nat.iter k (Loader.take (seeded (length (Loader.x l)))) rows /\
    Permutation (combine (Loader.x l') (Loader.y l')) rows.
Proof.
  induction k as [|k IH]; intros l Hs Hlen Hperm rows.
  - exists [], l. simpl. repeat split. reflexivity.
  - destruct (traverse_shuffled_arrays seeded l Hs Hlen Hperm)
      as (bs & l1 & T & Hs1 & Hlen1 & N1 & C1).
    destruct (IH l1 Hs1 Hlen1) as (bss & l' & E & L & C & P).
    { now rewrite N1. }
    exists (bs :: bss), l'. cbn [epochs]. rewrite T. cbn [bind fst snd]. rewrite E.
    cbn [bind fst snd].
    assert (Lr : length rows = length (Loader.x l))
      by (unfold rows; rewrite length_combine; lia).
    repeat split.
    + simpl. now rewrite L.
    + rewrite C, N1, C1. symmetry. apply Nat.iter_succ_r.
    + rewrite P, C1. apply take_permutation. now rewrite Lr.
Qed.

(** Two epochs over three rows with the reversing order: the rows are back
    in their first order. *)
Lemma shuffled_epochs_compose_witness :
  exists bss l',
    epochs (fun n => rev (seq 0 n)) 2 three_rows = Some (bss, l') /\
    combine (Loader.x l') (Loader.y l') = [(0, 10); (1, 11); (2, 12)].
Proof.
  destruct (shuffled_epochs_compose (fun n => rev (seq 0 n)) 2 three_rows)
    as (bss & l' & E & _ & C & _); try reflexivity.
  - symmetry. apply Permutation_rev.
  - exists bss, l'. split; assumption.
Defined.



(** ** The forward pass: when it fails *)

Local Open Scope Qc_scope.

Lemma bind_some_inv {A B : Type} (o : option A) (f : A -> option B) (b : B) :
  bind o f = Some b -> exists a, o = Some a /\ f a = Some b.
Proof. destruct o as [a|]; simpl; [eauto|discriminate]. Qed.

Lemma gather_some_inv {A : Type} (t : list A) (idx : list nat) (rs : list A) :
  gather t idx = Some rs -> Forall (fun i => (i < length t)%nat) idx.
Proof.
  revert rs. induction idx as [|i idx IH]; intros rs H; [constructor|].
  simpl in H.
  apply bind_some_inv in H as (r & Hr & H).
  apply bind_some_inv in H as (rs' & Hrs & _).
  constructor; [|eauto].
  apply nth_error_Some. congruence.
Qed.

Lemma encode_some_inv (m : MFAE) (indices : list features) (draws : list Qc)
  (means : tensor * tensor) :
  encode m indices draws = Some means ->
  indices <> [] /\
  Forall (fun e => (col4 e < length (encoder_bias m))%nat) (visible m indices draws).
Proof.
  unfold encode. intros H.
  apply bind_some_inv in H as (mx & Hmx & H).
  apply bind_some_inv in H as (sb & Hsb & _).
  split.
  - intros ->. discriminate.
  - unfold spmm in Hsb. cbn [fst snd] in Hsb.
    apply bind_some_inv in Hsb as (out & Hout & _).
    apply gather_some_inv in Hout.
    rewrite select_map, Forall_map in Hout. exact Hout.
Qed.

Lemma decode_some_inv (m : MFAE) (indices : list features) (ub uv out : tensor) :
  decode m indices ub uv = Some out ->
  Forall (fun e => (col1 e < length (decoder_bias m))%nat) indices.
Proof.
  unfold decode. intros H.
  apply bind_some_inv in H as (a & _ & H).
  apply bind_some_inv in H as (b & _ & H).
  apply bind_some_inv in H as (c & Hc & _).
  apply gather_some_inv in Hc. now rewrite Forall_map in Hc.
Qed.

(** X10.  With tables of the shapes of [__init__] (at least one encoder row) and
    one draw per event, the forward pass returns predictions exactly when
    the batch is not empty, every item id is a row of the decoder tables and
    the code of every VISIBLE event is a row of the encoder tables; in every
    other case it raises.  The code of a masked event is never looked up. *)
Theorem call_returns_iff (n_enc n_dec : nat) (m : MFAE)
  (indices : list features) (draws : list Qc) :
  well_shaped n_enc n_dec m ->
  (0 < n_enc)%nat ->
  length draws = length indices ->
  (call m indices draws <> None <->
   indices <> [] /\
   Forall (fun e => (col1 e < n_dec)%nat) indices /\
   Forall (fun e => (col4 e < n_enc)%nat) (visible m indices draws)).
Proof.
  intros W Hpos Hlen. split.
  - intros H. destruct (call m indices draws) as [out|] eqn:C; [clear H|congruence].
    unfold call in C. apply bind_some_inv in C as (means & E & D).
    apply encode_some_inv in E as [Hne Fc]. apply decode_some_inv in D.
    destruct W as ((Leb & _) & _ & (Ldb & _) & _).
    rewrite Leb in Fc. rewrite Ldb in D. auto.
  - intros (Hne & Fi & Fc).
    destruct (call_spec n_enc n_dec m indices draws) as (? & ? & ? & out & _ & _ & C & _).
    { repeat split; try assumption; apply W. }
    congruence.
Qed.

(** The toy model: the batch with the out-of-range code [21] is accepted
    when the event is masked. *)
Lemma call_returns_iff_witness :
  call (toy half) [hstack_code 0 2 0 0 1] [quarter] <> None.
Proof.
  apply (call_returns_iff (n_item_enc 2) (n_item_dec 2)).
  - repeat split; repeat constructor.
  - cbv. lia.
  - reflexivity.
  - split; [discriminate|]. split; [repeat constructor; cbv; lia|].
    vm_compute. constructor.
Defined.

(** ** The forward pass: what it reads *)

(** X11.  The predictions depend on the user ids, the item ids and the codes of
    the visible events only: the two unused columns, and the code of any
    masked event, can be changed at will. *)
Theorem call_reads_three_columns (m : MFAE) (indices1 indices2 : list features)
  (draws : list Qc) :
  map col0 indices1 = map col0 indices2 ->
  map col1 indices1 = map col1 indices2 ->
  map col4 (visible m indices1 draws) = map col4 (visible m indices2 draws) ->
  call m indices1 draws = call m indices2 draws.
Proof.
  intros H0 H1 H4.
  assert (L : length indices1 = length indices2)
    by (rewrite <- (length_map col0 indices1), H0; apply length_map).
  unfold visible in H4. rewrite <- !select_map in H4.
  unfold call, encode, decode. cbn [fst snd].
  now rewrite H0, H1, H4, L.
Qed.

(** The two-event batch, second event masked: other values in the unused
    columns and another code on the masked event. *)
Lemma call_reads_three_columns_witness :
  call (toy half) two_events [three_quarters; quarter]
    = call (toy half) [mkFeatures 0 1 7 8 11; mkFeatures 0 2 9 9 999]
        [three_quarters; quarter].
Proof.
  apply call_reads_three_columns; vm_compute; reflexivity.
Defined.

(** ** The forward pass: users nobody sees *)

Lemma means_of_unseen (m : MFAE) (indices : list features) (draws : list Qc)
  (u : nat) (ub uv : tensor) (c : Qc) :
  visible_of m indices draws u = [] ->
  nth_error ub u = Some [summed_bias m indices draws u / c] ->
  nth_error uv u = Some (vdiv (summed_vect m indices draws u) c) ->
  bias_at ub u = 0 /\ vect_at uv u = zeros (k m).
Proof.
  intros Hvis Hb Hv. split.
  - unfold bias_at. fold (vect_at ub u). rewrite (nth_error_vect_at _ _ _ Hb).
    unfold summed_bias. rewrite Hvis. simpl. unfold Qcdiv. ring.
  - rewrite (nth_error_vect_at _ _ _ Hv).
    unfold summed_vect. rewrite Hvis. simpl. apply vdiv_zeros.
Qed.

Lemma filter_none {A : Type} (f : A -> bool) (l : list A) :
  Forall (fun a => f a = false) l -> filter f l = [].
Proof.
  induction 1 as [|a l Ha _ IH]; simpl; [reflexivity|]. now rewrite Ha.
Qed.

Lemma mask_all_false (m : MFAE) (draws : list Qc) :
  1 <= frac m -> Forall (fun d => d < 1) draws ->
  mask_of m draws = repeat false (length draws).
Proof.
  intros Hf. unfold mask_of.
  induction 1 as [|d l Hd _ IH]; simpl; [reflexivity|].
  rewrite IH. f_equal.
  destruct (gtb d (frac m)) eqn:G; [|reflexivity].
  apply gtb_lt in G. exfalso.
  apply (Qclt_not_le d 1 Hd). apply Qcle_trans with (y := frac m); [exact Hf|].
  now apply Qclt_le_weak.
Qed.

Lemma select_none {A : Type} (n : nat) (l : list A) : select (repeat false n) l = [].
Proof.
  revert l. induction n as [|n IH]; intros [|a l]; simpl; auto.
Qed.

(** X12.  With [frac >= 1] no draw of [torch.rand] (always below one) passes the
    mask: no event is visible, no encoder row is read, whatever the codes,
    and every prediction is the decoder bias of its item. *)
Theorem everything_masked_when_frac_is_one (n_enc n_dec : nat) (m : MFAE)
  (indices : list features) (draws : list Qc) :
  well_shaped n_enc n_dec m ->
  (0 < n_enc)%nat ->
  indices <> [] ->
  length draws = length indices ->
  Forall (fun e => (col1 e < n_dec)%nat) indices ->
  1 <= frac m ->
  Forall (fun d => d < 1) draws ->
  exists out,
    call m indices draws = Some out /\
    visible m indices draws = [] /\
    forall j e, nth_error indices j = Some e ->
      nth_error out j = Some [bias_at (decoder_bias m) (col1 e)].
Proof.
  intros W Hpos Hne Hlen Fi Hf Fd.
  assert (Vis : visible m indices draws = []).
  { unfold visible. rewrite (mask_all_false m draws Hf Fd). apply select_none. }
  destruct (call_spec n_enc n_dec m indices draws)
    as (mx & ub & uv & out & Hmx & _ & C & _ & _ & M & _ & P).
  { repeat split; try assumption; try apply W. rewrite Vis. constructor. }
  exists out. split; [exact C|]. split; [exact Vis|].
  intros j e Hj. rewrite (P j e Hj).
  assert (Hu : (col0 e < S mx)%nat).
  { apply (In_lt_max indices); [exact Hmx|]. apply in_map. eapply nth_error_In, Hj. }
  destruct (M _ Hu) as [Hb Hv].
  assert (Vu : visible_of m indices draws (col0 e) = [])
    by (unfold visible_of; now rewrite Vis).
  destruct (means_of_unseen m indices draws (col0 e) ub uv _ Vu Hb Hv) as [B0 V0].
  rewrite B0, V0, dot_zeros_l. f_equal. f_equal. ring.
Qed.

Lemma everything_masked_when_frac_is_one_witness :
  exists out,
    call (toy 1) two_events [three_quarters; quarter] = Some out /\
    nth_error out 1 = Some [bias_at (decoder_bias (toy 1)) 2].
Proof.
  destruct (everything_masked_when_frac_is_one (n_item_enc 2) (n_item_dec 2)
              (toy 1) two_events [three_quarters; quarter])
    as (out & C & _ & P).
  - repeat split; repeat constructor.
  - cbv. lia.
  - discriminate.
  - reflexivity.
  - repeat constructor; cbv; lia.
  - vm_compute. discriminate.
  - repeat constructor.
  - exists out. split; [exact C|].
    apply (P 1%nat (hstack_code 0 2 0 0 0)). reflexivity.
Defined.

(** X13.  The mean arrays have a row for every id up to the largest user id of
    the batch; the rows of the ids that are not in the batch are zero. *)
Theorem absent_users_have_zero_rows (n_enc n_dec : nat) (m : MFAE)
  (indices : list features) (draws : list Qc) :
  valid_batch n_enc n_dec m indices draws ->
  exists mx ub uv,
    max_opt (map col0 indices) = Some mx /\
    encode m indices draws = Some (ub, uv) /\
    forall u, (u < S mx)%nat -> ~ In u (map col0 indices) ->
      nth_error ub u = Some [0] /\ nth_error uv u = Some (zeros (k m)).
Proof.
  intros V.
  destruct (encode_spec _ _ _ _ _ V) as (mx & ub & uv & Hmx & E & _ & _ & M).
  exists mx, ub, uv. split; [exact Hmx|]. split; [exact E|].
  intros u Hu Hnot. destruct (M u Hu) as [Hb Hv].
  assert (Vis : visible_of m indices draws u = []).
  { unfold visible_of, visible. apply filter_none, Forall_select.
    apply Forall_forall. intros e He. apply Nat.eqb_neq. intros <-.
    apply Hnot. now apply in_map. }
  destruct (means_of_unseen m indices draws u ub uv _ Vis Hb Hv) as [B0 V0].
  split.
  - rewrite Hb. f_equal. f_equal.
    unfold bias_at in B0. fold (vect_at ub u) in B0.
    now rewrite (nth_error_vect_at _ _ _ Hb) in B0.
  - rewrite Hv. f_equal. now rewrite (nth_error_vect_at _ _ _ Hv) in V0.
Qed.

(** A batch whose only user has the id [2]: the rows [0] and [1] of the
    mean arrays are zero. *)
Lemma absent_users_have_zero_rows_witness :
  exists ub uv,
    encode (toy half) [hstack_code 2 1 0 0 1] [three_quarters] = Some (ub, uv) /\
    nth_error ub 1 = Some [0].
Proof.
  destruct (absent_users_have_zero_rows (n_item_enc 2) (n_item_dec 2) (toy half)
              [hstack_code 2 1 0 0 1] [three_quarters])
    as (mx & ub & uv & Hmx & E & Z).
  - repeat split; try (cbv; lia); try discriminate; repeat constructor; cbv; lia.
  - injection Hmx as <-.
    exists ub, uv. split; [exact E|].
    apply (Z 1%nat); [simpl; lia|]. simpl. intros [H|[]]. discriminate.
Defined.

(** ** The forward pass: a user's block *)

Lemma select_as_filter {A B : Type} (f : A -> bool) (ds : list A) (l : list B) :
  select (map f ds) l = map snd (filter (fun p => f (fst p)) (combine ds l)).
Proof.
  revert l. induction ds as [|d ds IH]; intros [|a l]; simpl; try reflexivity.
  destruct (f d); simpl; now rewrite IH.
Qed.

Lemma filter_map_snd {A B : Type} (g : B -> bool) (l : list (A * B)) :
  filter g (map snd l) = map snd (filter (fun p => g (snd p)) l).
Proof.
  induction l as [|p l IH]; simpl; [reflexivity|].
  destruct (g (snd p)); simpl; now rewrite IH.
Qed.

Lemma filter_swap {A : Type} (f g : A -> bool) (l : list A) :
  filter f (filter g l) = filter g (filter f l).
Proof.
  induction l as [|a l IH]; simpl; [reflexivity|].
  destruct (f a) eqn:F, (g a) eqn:G; simpl; rewrite ?F, ?G, IH; reflexivity.
Qed.

(** The visible events of a user are read off the user's block. *)
Lemma visible_of_block (m : MFAE) (indices : list features) (draws : list Qc)
  (u : nat) :
  visible_of m indices draws u
    = map snd (filter (fun p => gtb (fst p) (frac m)) (user_block u draws indices)).
Proof.
  unfold visible_of, visible, mask_of, user_block.
  now rewrite select_as_filter, filter_map_snd, filter_swap.
Qed.

(** So is the number of the user's events. *)
Lemma events_of_block (indices : list features) (draws : list Qc) (u : nat) :
  length draws = length indices ->
  events_of indices u = length (user_block u draws indices).
Proof.
  unfold events_of, user_block. revert draws.
  induction indices as [|e l IH]; intros [|d ds] H; simpl in *; try discriminate;
    [reflexivity|].
  destruct (Nat.eq_dec (col0 e) u) as [E|E], (Nat.eqb_spec (col0 e) u);
    try contradiction; simpl; rewrite (IH ds) by lia; reflexivity.
Qed.

(** X14.  The means of a user, and so the predictions of the user's events,
    depend on the user's own events and their draws only: in two batches
    that hold the same block for the user, whatever other users they hold,
    the user gets the same mean bias, the same mean vector, and the same
    prediction for an event on the same item. *)
Theorem user_means_depend_on_own_block (n_enc n_dec : nat) (m : MFAE)
  (indices1 indices2 : list features) (draws1 draws2 : list Qc) (u : nat) :
  valid_batch n_enc n_dec m indices1 draws1 ->
  valid_batch n_enc n_dec m indices2 draws2 ->
  In u (map col0 indices1) ->
  user_block u draws1 indices1 = user_block u draws2 indices2 ->
  exists ub1 uv1 out1 ub2 uv2 out2,
    encode m indices1 draws1 = Some (ub1, uv1) /\
    call m indices1 draws1 = Some out1 /\
    encode m indices2 draws2 = Some (ub2, uv2) /\
    call m indices2 draws2 = Some out2 /\
    bias_at ub1 u = bias_at ub2 u /\
    vect_at uv1 u = vect_at uv2 u /\
    forall j1 j2 e1 e2,
      nth_error indices1 j1 = Some e1 ->
      nth_error indices2 j2 = Some e2 ->
      col0 e1 = u -> col0 e2 = u -> col1 e1 = col1 e2 ->
      nth_error out1 j1 = nth_error out2 j2.
Proof.
  intros V1 V2 Hu Hblock.
  pose proof (proj1 (proj2 (proj2 (proj2 V1)))) as L1.
  pose proof (proj1 (proj2 (proj2 (proj2 V2)))) as L2.
  assert (Ev : events_of indices1 u = events_of indices2 u)
    by (rewrite (events_of_block _ _ _ L1), (events_of_block _ _ _ L2), Hblock;
        reflexivity).
  assert (Hu2 : In u (map col0 indices2)).
  { apply (count_occ_In Nat.eq_dec). fold (events_of indices2 u). rewrite <- Ev.
    now apply (count_occ_In Nat.eq_dec). }
  assert (Vis : visible_of m indices1 draws1 u = visible_of m indices2 draws2 u)
    by (now rewrite !visible_of_block, Hblock).
  destruct (call_spec _ _ _ _ _ V1)
    as (mx1 & ub1 & uv1 & out1 & Hmx1 & E1 & C1 & _ & _ & M1 & _ & P1).
  destruct (call_spec _ _ _ _ _ V2)
    as (mx2 & ub2 & uv2 & out2 & Hmx2 & E2 & C2 & _ & _ & M2 & _ & P2).
  destruct (M1 u (In_lt_max _ _ _ Hmx1 Hu)) as [Hb1 Hv1].
  destruct (M2 u (In_lt_max _ _ _ Hmx2 Hu2)) as [Hb2 Hv2].
  assert (B : bias_at ub1 u = bias_at ub2 u).
  { unfold bias_at. fold (vect_at ub1 u) (vect_at ub2 u).
    rewrite (nth_error_vect_at _ _ _ Hb1), (nth_error_vect_at _ _ _ Hb2).
    unfold summed_bias. now rewrite Vis, Ev. }
  assert (Vc : vect_at uv1 u = vect_at uv2 u).
  { rewrite (nth_error_vect_at _ _ _ Hv1), (nth_error_vect_at _ _ _ Hv2).
    unfold summed_vect. now rewrite Vis, Ev. }
  exists ub1, uv1, out1, ub2, uv2, out2. repeat split; try assumption.
  intros j1 j2 e1 e2 H1 H2 U1 U2 I.
  now rewrite (P1 _ _ H1), (P2 _ _ H2), U1, U2, I, B, Vc.
Qed.

(** The two-event batch of user [0], alone and followed by an event of
    user [1]: user [0] gets the same mean bias. *)
Lemma user_means_depend_on_own_block_witness :
  exists ub1 uv1 ub2 uv2,
    encode (toy half) two_events [three_quarters; quarter] = Some (ub1, uv1) /\
    encode (toy half) three_events [three_quarters; quarter; three_quarters]
      = Some (ub2, uv2) /\
    bias_at ub1 0 = bias_at ub2 0.
Proof.
  destruct (user_means_depend_on_own_block (n_item_enc 2) (n_item_dec 2) (toy half)
              two_events three_events
              [three_quarters; quarter] [three_quarters; quarter; three_quarters] 0%nat)
    as (ub1 & uv1 & out1 & ub2 & uv2 & out2 & E1 & _ & E2 & _ & B & _).
  - apply toy_valid.
  - repeat split; try (cbv; lia); try discriminate; repeat constructor;
      try (cbv; lia).
  - simpl. auto.
  - vm_compute. reflexivity.
  - exists ub1, uv1, ub2, uv2. repeat split; assumption.
Defined.

(** ** The forward pass with an encoder that holds only zeros *)

Lemma Qcsum_zeros (l : list Qc) : Forall (fun v => v = 0) l -> Qcsum l = 0.
Proof.
  induction 1 as [|v l Hv _ IH]; simpl; [reflexivity|]. rewrite Hv, IH. ring.
Qed.

Lemma zero_row (r : row) : Forall (fun v => v = 0) r -> r = zeros (length r).
Proof.
  induction 1 as [|v l Hv _ IH]; simpl; [reflexivity|].
  unfold zeros in *. simpl. now rewrite Hv, <- IH.
Qed.

Lemma bias_at_zero (t : tensor) (i : nat) :
  Forall (Forall (fun v => v = 0)) t -> bias_at t i = 0.
Proof.
  intros F. unfold bias_at.
  destruct (nth_in_or_default i t []) as [Hin| ->]; [|reflexivity].
  rewrite Forall_forall in F. specialize (F _ Hin).
  destruct (nth_in_or_default 0 (nth i t []) 0) as [Hin0|E]; [|exact E].
  rewrite Forall_forall in F. now apply F.
Qed.

Lemma vect_at_zero (n w : nat) (t : tensor) (i : nat) :
  shaped n w t -> (i < n)%nat ->
  Forall (Forall (fun v => v = 0)) t -> vect_at t i = zeros w.
Proof.
  intros S Hi F. pose proof (shaped_row _ _ _ _ S Hi) as L.
  rewrite <- L. apply zero_row.
  rewrite Forall_forall in F. apply F. unfold vect_at. apply nth_In.
  destruct S as [Hn _]. lia.
Qed.

Lemma vadd_zeros (w : nat) : vadd (zeros w) (zeros w) = zeros w.
Proof.
  unfold vadd, zeros. induction w as [|w IH]; simpl; [reflexivity|].
  rewrite IH. f_equal.
Qed.

Lemma vsum_zeros (w : nat) (rs : list row) :
  Forall (fun r => r = zeros w) rs -> vsum w rs = zeros w.
Proof.
  unfold vsum. induction 1 as [|r rs Hr _ IH]; simpl; [reflexivity|].
  rewrite Hr, IH. apply vadd_zeros.
Qed.

(** X15.  With encoder tables that hold only zeros, every prediction is the
    decoder bias of its item, whatever the mask. *)
Theorem zero_encoder_predicts_decoder_bias (n_enc n_dec : nat) (m : MFAE)
  (indices : list features) (draws : list Qc) :
  valid_batch n_enc n_dec m indices draws ->
  Forall (Forall (fun v => v = 0)) (encoder_bias m) ->
  Forall (Forall (fun v => v = 0)) (encoder_vect m) ->
  exists out,
    call m indices draws = Some out /\
    forall j e, nth_error indices j = Some e ->
      nth_error out j = Some [bias_at (decoder_bias m) (col1 e)].
Proof.
  intros V Zb Zv.
  destruct (call_spec _ _ _ _ _ V)
    as (mx & ub & uv & out & Hmx & _ & C & _ & _ & M & _ & P).
  destruct V as ((_ & Sev & _) & _ & _ & _ & _ & Fcode).
  exists out. split; [exact C|].
  intros j e Hj. rewrite (P j e Hj).
  assert (Hu : (col0 e < S mx)%nat).
  { apply (In_lt_max indices); [exact Hmx|]. apply in_map. eapply nth_error_In, Hj. }
  destruct (M _ Hu) as [Hb Hv].
  assert (B0 : bias_at ub (col0 e) = 0).
  { unfold bias_at. fold (vect_at ub (col0 e)). rewrite (nth_error_vect_at _ _ _ Hb).
    unfold summed_bias. rewrite Qcsum_zeros.
    - simpl. unfold Qcdiv. ring.
    - apply Forall_forall. intros v Hin. apply in_map_iff in Hin as (x & <- & _).
      now apply bias_at_zero. }
  assert (V0 : vect_at uv (col0 e) = zeros (k m)).
  { rewrite (nth_error_vect_at _ _ _ Hv). unfold summed_vect. rewrite vsum_zeros.
    - apply vdiv_zeros.
    - apply Forall_forall. intros r Hin. apply in_map_iff in Hin as (x & <- & Hx).
      apply (vect_at_zero n_enc); try assumption.
      unfold visible_of in Hx. apply filter_In in Hx as [Hx _].
      rewrite Forall_forall in Fcode. now apply Fcode. }
  rewrite B0, V0, dot_zeros_l. f_equal. f_equal. ring.
Qed.

(** ** The loss: when it vanishes *)

Lemma Qc_plus_zero (a b : Qc) : 0 <= a -> 0 <= b -> a + b = 0 -> a = 0 /\ b = 0.
Proof.
  intros Ha Hb H.
  assert (A : a = 0).
  { apply Qcle_antisym; [|exact Ha]. rewrite <- H.
    replace a with (a + 0) at 1 by ring.
    apply Qcplus_le_compat; [apply Qcle_refl|exact Hb]. }
  split; [exact A|]. rewrite A in H. rewrite <- H. ring.
Qed.

Lemma Qcsum_sq_zero (l : list Qc) :
  Qcsum (map (fun v => v * v) l) = 0 <-> Forall (fun v => v = 0) l.
Proof.
  split.
  - induction l as [|v l IH]; simpl; intros H; [constructor|].
    apply Qc_plus_zero in H as [Hv Hl].
    + constructor; [|now apply IH].
      now destruct (Qcmult_integral _ _ Hv).
    + apply Qc_sq_nonneg.
    + apply Qcsum_nonneg. apply Forall_forall. intros x Hx.
      apply in_map_iff in Hx as (y & <- & _). apply Qc_sq_nonneg.
  - intros F. apply Qcsum_zeros.
    apply Forall_forall. intros x Hx. apply in_map_iff in Hx as (y & <- & Hy).
    rewrite Forall_forall in F. rewrite (F _ Hy). ring.
Qed.

Lemma l2_regularize_zero (array : tensor) :
  l2_regularize array = 0 <-> Forall (Forall (fun v => v = 0)) array.
Proof.
  unfold l2_regularize. rewrite Qcsum_sq_zero. apply Forall_concat.
Qed.

(** X16.  The penalty [l2_regularize] of a table is never negative, and it is zero
    exactly when every entry of the table is zero. *)
Theorem l2_regularize_zero_iff (array : tensor) :
  0 <= l2_regularize array /\
  (l2_regularize array = 0 <-> Forall (Forall (fun v => v = 0)) array).
Proof.
  split; [apply l2_regularize_nonneg|apply l2_regularize_zero].
Qed.

(** X17.  For a non-empty prediction vector and a target vector of the
    same length, with a constant [c >= 0] the loss is at least the mean
    squared error between them, and it does not decrease when the constant
    grows over the same vector tables. *)
Theorem loss_at_least_mse (m : MFAE) (pred target : list Qc) :
  pred <> [] ->
  length pred = length target ->
  0 <= c_vector m ->
  mean_squared_error pred target <= loss m (column pred) (column target) /\
  forall m',
    encoder_vect m' = encoder_vect m ->
    decoder_vect m' = decoder_vect m ->
    c_vector m <= c_vector m' ->
    loss m (column pred) (column target) <= loss m' (column pred) (column target).
Proof.
  intros Hne Hlen Hc. clear Hne. unfold loss.
  rewrite (mse_loss_column pred target Hlen).
  pose proof (l2_regularize_nonneg (encoder_vect m)) as Ne.
  pose proof (l2_regularize_nonneg (decoder_vect m)) as Nd.
  split.
  - replace (mean_squared_error pred target)
      with (mean_squared_error pred target + 0 + 0) at 1 by ring.
    apply Qcplus_le_compat; [apply Qcplus_le_compat; [apply Qcle_refl|]|];
      now apply Qc_mult_nonneg.
  - intros m' He Hd Hcc. rewrite He, Hd.
    rewrite !(Qcmult_comm (l2_regularize _)).
    apply Qcplus_le_compat; [apply Qcplus_le_compat; [apply Qcle_refl|]|];
      now apply Qcmult_le_compat_r.
Qed.

(** Predictions [1, 3] against targets [0, 1]: the loss of the toy model
    ([c = 1]) is at least the mean squared error [5 / 2]. *)
Lemma loss_at_least_mse_witness :
  mean_squared_error [1; 1 + 1 + 1] [0; 1]
    <= loss (toy half) (column [1; 1 + 1 + 1]) (column [0; 1]).
Proof.
  destruct (loss_at_least_mse (toy half) [1; 1 + 1 + 1] [0; 1]) as [A _].
  - discriminate.
  - reflexivity.
  - vm_compute. discriminate.
  - exact A.
Defined.

Lemma zero_encoder_predicts_decoder_bias_witness :
  exists out,
    call toy_zero_encoder two_events [three_quarters; three_quarters] = Some out /\
    nth_error out 0 = Some [bias_at (decoder_bias toy_zero_encoder) 1].
Proof.
  destruct (zero_encoder_predicts_decoder_bias (n_item_enc 2) (n_item_dec 2)
              toy_zero_encoder two_events [three_quarters; three_quarters])
    as (out & C & P).
  - repeat split; try (cbv; lia); try discriminate; repeat constructor;
      try (cbv; lia).
  - repeat constructor.
  - repeat constructor.
  - exists out. split; [exact C|].
    apply (P 0%nat (hstack_code 0 1 0 0 1)). reflexivity.
Defined.

(** ** The mean squared error and the distances between vectors *)



(** Rows of one length are equal exactly when all their differences are
    zero. *)
Lemma row_diff_zero (r v : row) :
  length r = length v ->
  (Forall (fun d => d = 0) (map2 Qcminus r v) <-> r = v).
Proof.
  revert v. induction r as [|a r IH]; intros [|b v] L; simpl in *; try discriminate.
  - split; [reflexivity|constructor].
  - split.
    + intros F. inversion F as [|? ? Hd F']; subst.
      f_equal; [|apply IH; [lia|assumption]].
      replace a with (a - b + b) by ring. rewrite Hd. ring.
    + intros [= -> ->]. constructor; [ring|]. apply IH; [lia|reflexivity].
Qed.




(** X19.  The squared distances [sim] from the vector of item [q]: one per row of
    the table, none negative, zero for item [q] itself, so that no item is
    nearer to [q] than [q]; another item of the same width is at distance
    zero exactly when it has the same vector. *)
Theorem sim_nearest_is_self (lib : tensor) (q : nat) (vec : row) :
  nth_error lib q = Some vec ->
  exists s,
    sim lib q = Some s /\
    length s = length lib /\
    nth_error s q = Some 0 /\
    Forall (fun d => 0 <= d) s /\
    forall i r, nth_error lib i = Some r -> length r = length vec ->
      (nth_error s i = Some 0 <-> r = vec).
Proof.
  intros Hq. unfold sim. rewrite Hq. cbn [bind].
  eexists. split; [reflexivity|].
  assert (D : forall i r, nth_error lib i = Some r -> length r = length vec ->
                (nth_error (map (fun r => Qcsum (map (fun d => d * d) (map2 Qcminus r vec)))
                              lib) i = Some 0 <-> r = vec)).
  { intros i r Hi L. rewrite nth_error_map. unfold tensor, row in *. rewrite Hi. simpl.
    rewrite <- (row_diff_zero r vec L), <- Qcsum_sq_zero.
    split; [intros [= E]; exact E|intros ->; reflexivity]. }
  split; [apply length_map|]. split; [|split; [|exact D]].
  - now apply (D q vec Hq eq_refl).
  - apply Forall_forall. intros d Hd. apply in_map_iff in Hd as (r & <- & _).
    apply Qcsum_nonneg, Forall_forall. intros x Hx.
    apply in_map_iff in Hx as (y & <- & _). apply Qc_sq_nonneg.
Qed.

Lemma sim_nearest_is_self_witness :
  exists s,
    sim three_vectors 0 = Some s /\
    nth_error s 0 = Some 0 /\
    nth_error s 2 = Some 0.
Proof.
  destruct (sim_nearest_is_self three_vectors 0 [1; 0] eq_refl)
    as (s & E & _ & Z & _ & D).
  exists s. repeat split; try assumption.
  now apply (D 2%nat [1; 0]).
Defined.

(** ** From the preprocessed data to the forward pass *)

Local Open Scope nat_scope.

Lemma Forall_slice {A : Type} (P : A -> Prop) (a : list A) (i j : nat) :
  Forall P a -> Forall P (Loader.slice a i j).
Proof.
  intros F. unfold Loader.slice.
  assert (S : Forall P (skipn i a)).
  { clear j. revert a F. induction i as [|i IH]; intros [|u a] F; simpl; auto.
    inversion F; auto. }
  revert S. generalize (skipn i a) (j - i). clear. intros l n. revert l.
  induction n as [|n IH]; intros [|u l] F; simpl; auto.
  inversion F; subst. constructor; auto.
Qed.

(** X20.  Training never runs into an index error: over a dataset of preprocessed
    rows and a model with the table sizes of the notebook
    ([n_item * 10 + 1] and [n_item + 1]), every batch an unshuffled
    traversal yields is accepted by the forward pass, whatever the mask. *)
Theorem training_batches_are_accepted {Y : Type} (seeded : nat -> list nat)
  (n_item : nat) (m : MFAE) (l : @Loader.t features Y) :
  well_shaped (n_item_enc n_item) (n_item_dec n_item) m ->
  Loader.do_shuffle l = false ->
  0 < Loader.batchsize l ->
  length (Loader.x l) = length (Loader.y l) ->
  Forall (preprocessed n_item) (Loader.x l) ->
  exists bs l',
    Loader.traverse seeded l = Some (bs, l') /\
    Forall (fun b => forall draws,
              length draws = length (fst b) ->
              call m (fst b) draws <> None) bs.
Proof.
  intros W Hs Hn Hlen F.
  eexists _, _. split; [now apply traverse_unshuffled_eq|].
  apply Forall_forall. intros b Hb. apply in_map_iff in Hb as (j & <- & Hj).
  apply in_seq in Hj. unfold batch_at. cbn [fst]. intros draws Hd.
  set (bx := Loader.slice (Loader.x l) (0 + j * Loader.batchsize l)
               (0 + j * Loader.batchsize l + Loader.batchsize l)) in *.
  assert (Lb : length bx = Loader.batchsize l).
  { apply slice_length. rewrite Hlen.
    assert (j * Loader.batchsize l + Loader.batchsize l < length (Loader.y l)).
    { apply batches_from_in_range; [assumption|]. unfold batches_from.
      rewrite Nat.sub_0_r. lia. }
    lia. }
  pose proof (Forall_slice _ _ (0 + j * Loader.batchsize l)
                (0 + j * Loader.batchsize l + Loader.batchsize l) F) as Fb.
  fold bx in Fb.
  destruct (call_spec (n_item_enc n_item) (n_item_dec n_item) m bx draws)
    as (? & ? & ? & out & _ & _ & C & _); [|congruence].
  repeat split; try apply W; try assumption.
  - unfold n_item_enc. lia.
  - intros E. rewrite E in Lb. simpl in Lb. lia.
  - revert Fb. apply Forall_impl. intros e [H _]. unfold n_item_dec. lia.
  - apply Forall_select. revert Fb. apply Forall_impl.
    intros e (H & r & Hr & ->). unfold item_code, n_item_enc. lia.
Qed.

Lemma training_batches_are_accepted_witness :
  call (toy half) [hstack_code 0 0 0 0 5; hstack_code 0 1 0 0 3]
    [three_quarters; quarter] <> None.
Proof.
  destruct (training_batches_are_accepted (fun n => seq 0 n) 2 (toy half) three_ratings)
    as (bs & l' & T & F).
  - repeat split; repeat constructor.
  - reflexivity.
  - simpl. lia.
  - reflexivity.
  - repeat constructor; try (cbv; lia).
    + exists 5. split; [lia|reflexivity].
    + exists 3. split; [lia|reflexivity].
    + exists 4. split; [lia|reflexivity].
  - injection T as <- _.
    inversion F as [|b bs' Hb _]; subst.
    apply (Hb [three_quarters; quarter]). reflexivity.
Defined.
